(** * torchdata.cachers: the Cacher backends [Memory] and [Pickle]

    A shallow embedding of [src/torchdata/cachers.py].

    - [Memory] keeps a Python dict; it is a [gmap Z Value].
    - [Pickle] keeps one file per index in a directory.  Its methods are
      programs of a small state-and-exception monad [IO] over a file
      system, which is a tree of directories and regular files.  The
      calls the source makes into [pathlib], [shutil], [open] and
      [pickle] are modelled next to it, each as the library documents it.

    An index is a Python [int], here [Z]; [str(index)] is [pretty].  A
    path is the list of its components, counted from the top directory,
    where the paths start; the empty path is that directory itself.
    What a system refuses for reasons of its own is not modelled:
    permissions, full disks, symbolic links, and the removal of a root
    or of a directory in use. *)

From Stdlib Require Import ZArith Ascii String.
From stdpp Require Import gmap strings list fin_maps pretty.

(** * The program *)

(** ** Exceptions and results *)

Module Py.

(** The exceptions the two backends can meet.  The four file exceptions
    and [OSError] itself are the [OSError] family. *)
Inductive exn :=
  | ValueError
  | KeyError
  | OSError
  | FileNotFoundError
  | FileExistsError
  | NotADirectoryError
  | IsADirectoryError
  | PicklingError
  | UnpicklingError.

Definition is_OSError (e : exn) : bool :=
  match e with
  | OSError | FileNotFoundError | FileExistsError
  | NotADirectoryError | IsADirectoryError => true
  | _ => false
  end.

Inductive result (A : Type) :=
  | Ok (a : A)
  | Raise (e : exn).
Arguments Ok {A} a.
Arguments Raise {A} e.

Definition returned {A} (r : result A) : bool :=
  match r with Ok _ => true | Raise _ => false end.

#[global] Instance result_ret : MRet result := λ A a, Ok a.
#[global] Instance result_bind : MBind result := λ A B f r,
  match r with Ok a => f a | Raise e => Raise e end.

End Py.
Export Py.

(** ** Strings: what [pathlib] asks of a file name *)

Module Str.

Fixpoint contains_char (c : ascii) (s : string) : bool :=
  match s with
  | EmptyString => false
  | String a s' => if decide (a = c) then true else contains_char c s'
  end.

Definition startswith_char (c : ascii) (s : string) : bool :=
  match s with
  | String a _ => if decide (a = c) then true else false
  | EmptyString => false
  end.

(** [s.rfind(c)]: the highest index of [c] in [s]; [None] is Python's -1. *)
Fixpoint rfind (c : ascii) (s : string) : option nat :=
  match s with
  | EmptyString => None
  | String a s' =>
      match rfind c s' with
      | Some i => Some (S i)
      | None => if decide (a = c) then Some 0 else None
      end
  end.

(** [s[i:]] and [s[:n]]. *)
Definition slice_from (i : nat) (s : string) : string :=
  String.substring i (String.length s - i) s.
Definition slice_to (n : nat) (s : string) : string :=
  String.substring 0 n s.

End Str.

(** ** The file system *)

Module Fs.

Abbreviation bytes := (list Byte.byte).
Abbreviation Path := (list string).

(** A node is a regular file with its content or a directory with its
    entries. *)
#[warnings="-register-all"]
Inductive node :=
  | File (data : bytes)
  | Dir (entries : gmap string node).

(** What is at a place: nothing, a regular file or a directory.  The
    file system is what is at the top place, where the paths start; the
    top directory is a directory like any other, it can be removed and
    made again. *)
Abbreviation place := (option node).

(** The state-and-exception monad of the methods: a call returns a value
    or raises, and leaves a file system either way. *)
Definition IO (A : Type) : Type := place → result A * place.

#[global] Instance IO_ret : MRet IO := λ A a fs, (Ok a, fs).
#[global] Instance IO_bind : MBind IO := λ A B f m fs,
  match m fs with
  | (Ok a, fs') => f a fs'
  | (Raise e, fs') => (Raise e, fs')
  end.

Definition raise {A} (e : exn) : IO A := λ fs, (Raise e, fs).

(** A pure computation that may raise, run inside [IO]. *)
Definition lift {A} (r : result A) : IO A := λ fs, (r, fs).

(** Read the file system without changing it. *)
Definition inspect {A} (f : place → A) : IO A := λ fs, (Ok (f fs), fs).

(** Replace the file system by [u fs]; a failing [u] changes nothing. *)
Definition modify (u : place → result place) : IO unit := λ fs,
  match u fs with
  | Ok fs' => (Ok (), fs')
  | Raise e => (Raise e, fs)
  end.

(** The place a path names.  The way to it leads through directories: a
    missing one is ENOENT, a regular file in the place of one is
    ENOTDIR. *)
Fixpoint slot (p : Path) (fs : place) : result place :=
  match p with
  | [] => Ok fs
  | x :: p' =>
      match fs with
      | None => Raise FileNotFoundError
      | Some (File _) => Raise NotADirectoryError
      | Some (Dir es) => slot p' (es !! x)
      end
  end.

Definition found (o : place) : result node :=
  match o with
  | Some n => Ok n
  | None => Raise FileNotFoundError
  end.

(** Path resolution, as [stat] does it. *)
Definition resolve (p : Path) (fs : place) : result node :=
  slot p fs ≫= found.

(** The entries of a directory with the place of [x] set to [o]. *)
Definition fill (x : string) (o : place) (es : gmap string node)
    : gmap string node :=
  match o with
  | Some c => <[x:=c]> es
  | None => delete x es
  end.

(** Rewrite what is at the place [p] names by [f]. *)
Fixpoint at_path (p : Path) (f : place → result place) (fs : place)
    : result place :=
  match p with
  | [] => f fs
  | x :: p' =>
      match fs with
      | None => Raise FileNotFoundError
      | Some (File _) => Raise NotADirectoryError
      | Some (Dir es) =>
          o ← at_path p' f (es !! x);
          Ok (Some (Dir (fill x o es)))
      end
  end.

Definition is_dir_node (r : result node) : bool :=
  match r with Ok (Dir _) => true | _ => false end.
Definition is_file_node (r : result node) : bool :=
  match r with Ok (File _) => true | _ => false end.

(** What a path shows to an observer: the content of a regular file,
    [None] for a directory, or the error of resolving it. *)
Definition view (r : result node) : result (option bytes) :=
  match r with
  | Ok (File data) => Ok (Some data)
  | Ok (Dir _) => Ok None
  | Raise e => Raise e
  end.

(** [grows p fs fs']: from [fs] to [fs'] directories were made on the
    way to [p] and nothing else happened.  Every path of [fs] shows in
    [fs'] what it showed, and a path new in [fs'] is a directory that
    leads to [p]. *)
Definition grows (p : Path) (fs fs' : place) : Prop :=
  (∀ q, returned (resolve q fs) = true →
        view (resolve q fs') = view (resolve q fs))
  ∧ (∀ q, returned (resolve q fs') = true → returned (resolve q fs) = false →
          q `prefix_of` p ∧ is_dir_node (resolve q fs') = true).

(** [Path.is_dir()] and [Path.is_file()]: false, not an exception, when
    the path does not resolve. *)
Definition is_dir (p : Path) : IO bool :=
  inspect (λ fs, is_dir_node (resolve p fs)).
Definition is_file (p : Path) : IO bool :=
  inspect (λ fs, is_file_node (resolve p fs)).

(** What the system calls do at the place of their path. *)
Definition add_dir (o : place) : result place :=
  match o with
  | Some _ => Raise FileExistsError
  | None => Ok (Some (Dir ∅))
  end.

Definition truncate_file (o : place) : result place :=
  match o with
  | Some (Dir _) => Raise IsADirectoryError
  | _ => Ok (Some (File []))
  end.

Definition put_file (data : bytes) (o : place) : result place :=
  Ok (Some (File data)).

Definition remove_dir (o : place) : result place :=
  match o with
  | Some (Dir _) => Ok None
  | Some (File _) => Raise NotADirectoryError
  | None => Raise FileNotFoundError
  end.

(** [os.mkdir(p)]. *)
Definition os_mkdir (p : Path) : IO unit := modify (at_path p add_dir).

(** [Path.mkdir(parents, exist_ok)].  [pathlib] tries [os.mkdir]; on
    [FileNotFoundError] with [parents] it makes the parent (with
    [parents=True, exist_ok=True]) and then itself with [parents=False];
    any other [OSError] is swallowed when [exist_ok] and the path is a
    directory.  The recursion follows the path upwards, so it runs over
    the reversed path; the top is its own parent. *)
Definition mkdir_handle (p : Path) (exist_ok : bool) (e : exn) : IO unit :=
  d ← is_dir p;
  if negb exist_ok || negb d then raise e else mret ().

Definition mkdir_noparents (p : Path) (exist_ok : bool) : IO unit := λ fs,
  match os_mkdir p fs with
  | (Ok _, fs') => (Ok (), fs')
  | (Raise FileNotFoundError, fs') => (Raise FileNotFoundError, fs')
  | (Raise e, fs') => mkdir_handle p exist_ok e fs'
  end.

Fixpoint mkdir_rev (rp : Path) (parents exist_ok : bool) : IO unit := λ fs,
  match os_mkdir (rev rp) fs with
  | (Ok _, fs') => (Ok (), fs')
  | (Raise FileNotFoundError, fs') =>
      match rp with
      | [] => (Raise FileNotFoundError, fs')
      | _ :: rparent =>
          if negb parents then (Raise FileNotFoundError, fs')
          else (_ ← mkdir_rev rparent true true;
                mkdir_noparents (rev rp) exist_ok) fs'
      end
  | (Raise e, fs') => mkdir_handle (rev rp) exist_ok e fs'
  end.

Definition mkdir (p : Path) (parents exist_ok : bool) : IO unit :=
  mkdir_rev (rev p) parents exist_ok.

(** [open(p, "wb")]: creates the file or truncates it.  The handle it
    returns is the path it opened. *)
Definition open_wb (p : Path) : IO Path :=
  _ ← modify (at_path p truncate_file);
  mret p.

(** [file.write(data)] on a handle from [open_wb], the file still empty. *)
Definition file_write (h : Path) (data : bytes) : IO unit :=
  modify (at_path h (put_file data)).

(** [open(p, "rb")] and [file.read()]. *)
Definition read_node (r : result node) : result bytes :=
  match r with
  | Ok (File data) => Ok data
  | Ok (Dir _) => Raise IsADirectoryError
  | Raise e => Raise e
  end.

Definition open_rb (p : Path) : IO Path := λ fs,
  match read_node (resolve p fs) with
  | Ok _ => (Ok p, fs)
  | Raise e => (Raise e, fs)
  end.

Definition file_read (h : Path) : IO bytes := λ fs,
  (read_node (resolve h fs), fs).

(** [file.__enter__()] returns the file; [file.__exit__] closes it. *)
Definition file_enter (h : Path) : IO Path := mret h.
Definition file_close (h : Path) : IO unit := mret ().

(** [shutil.rmtree(p)]: removes the directory [p] with all below it; a
    path that is no directory raises. *)
Definition rmtree (p : Path) : IO unit := modify (at_path p remove_dir).

(** The [with] statement for a manager whose [__exit__] returns [None]:
    [__exit__] runs on every way out of the block, and an exception of
    the block is raised again after it (an exception of [__exit__]
    itself takes its place). *)
Definition with_stmt {A B C} (mgr : A) (enter : A → IO B)
    (exit : A → IO unit) (body : B → IO C) : IO C := λ fs,
  match enter mgr fs with
  | (Raise e, fs0) => (Raise e, fs0)
  | (Ok x, fs0) =>
      match body x fs0 with
      | (Ok c, fs1) =>
          match exit mgr fs1 with
          | (Ok _, fs2) => (Ok c, fs2)
          | (Raise e', fs2) => (Raise e', fs2)
          end
      | (Raise e, fs1) =>
          match exit mgr fs1 with
          | (Ok _, fs2) => (Raise e, fs2)
          | (Raise e', fs2) => (Raise e', fs2)
          end
      end
  end.

End Fs.
Export Fs.

(** ** [pathlib]: pure paths *)

Module Pathlib.

(** A path without its last component, and that component; the path
    with no component has neither. *)
Fixpoint unsnoc (p : Path) : option (Path * string) :=
  match p with
  | [] => None
  | x :: p' =>
      match unsnoc p' with
      | None => Some ([], x)
      | Some (q, y) => Some (x :: q, y)
      end
  end.

(** [p.name]: the last component, the empty string where there is none. *)
Definition name (p : Path) : string :=
  match unsnoc p with Some (_, n) => n | None => "" end.

Definition parent (p : Path) : Path :=
  match unsnoc p with Some (q, _) => q | None => [] end.

(** [p.suffix]: the name from its last dot on, when that dot is neither
    the first nor the last character. *)
Definition suffix (p : Path) : string :=
  let n := name p in
  match Str.rfind "." n with
  | Some i =>
      if ((0 <? i) && (i <? String.length n - 1))%nat then Str.slice_from i n
      else ""
  | None => ""
  end.

(** [p / key] for a [key] that is one component. *)
Definition truediv (p : Path) (key : string) : Path := p ++ [key].

(** The suffixes [with_suffix] accepts: the empty one and those that
    start with a dot, are longer than the dot and have no separator. *)
Definition valid_suffix (sfx : string) : bool :=
  negb (Str.contains_char "/" sfx)
  && (bool_decide (sfx = "") || Str.startswith_char "." sfx)
  && negb (bool_decide (sfx = ".")).

(** [p.with_suffix(sfx)], as [pathlib] has it from Python 3.6 on: a
    suffix with a separator, a non-empty suffix that does not start with
    a dot and the suffix ["."] are refused with [ValueError], and so is a
    path without a name; otherwise the suffix takes the place of the old
    one, or is appended where there is none. *)
Definition with_suffix (p : Path) (sfx : string) : result Path :=
  if Str.contains_char "/" sfx then Raise ValueError
  else if (negb (bool_decide (sfx = "")) && negb (Str.startswith_char "." sfx))
          || bool_decide (sfx = ".")
  then Raise ValueError
  else
    let n := name p in
    if bool_decide (n = "") then Raise ValueError
    else
      let old := suffix p in
      let n' :=
        if bool_decide (old = "") then n +:+ sfx
        else Str.slice_to (String.length n - String.length old)%nat n +:+ sfx in
      Ok (parent p ++ [n']).

End Pathlib.

(** ** class Pickle(Cacher) *)

Module Pickle.

Record t := { path : Path; extension : string }.

Definition default_extension : string := ".pkl".

Section Pickler.

(** [pickle.dumps] and [pickle.loads]: a value that cannot be pickled
    and bytes that cannot be unpickled give [None]. *)
Context {Value : Type}.
Variable pickle_dumps : Value → option bytes.
Variable pickle_loads : bytes → option Value.

Definition pickle_dump (data : Value) (file : Path) : IO unit :=
  match pickle_dumps data with
  | Some b => file_write file b
  | None => raise PicklingError
  end.

Definition pickle_load (file : Path) : IO Value :=
  b ← file_read file;
  match pickle_loads b with
  | Some v => mret v
  | None => raise UnpicklingError
  end.

(** A value survives the serializer when unpickling what pickling it
    gave gives it back. *)
Definition survives (v : Value) : Prop :=
  ∀ b, pickle_dumps v = Some b → pickle_loads b = Some v.

(** What [pickle.load] makes of the outcome of reading a file. *)
Definition unpickle (r : result bytes) : result Value :=
  b ← r;
  match pickle_loads b with
  | Some v => Ok v
  | None => Raise UnpicklingError
  end.

Definition __init__ (path : Path) (extension : string) : IO t :=
  _ ← mkdir path true true;
  mret {| path := path; extension := extension |}.

(** The name the entry of [index] is meant to have, and its path. *)
Definition file_name (self : t) (index : Z) : string :=
  pretty index +:+ extension self.
Definition file_path (self : t) (index : Z) : Path :=
  path self ++ [file_name self index].

(** [(self.path / str(index)).with_suffix(self.extension)] *)
Definition entry (self : t) (index : Z) : result Path :=
  Pathlib.with_suffix (Pathlib.truediv (path self) (pretty index))
    (extension self).

Definition __contains__ (self : t) (index : Z) : IO bool :=
  p ← lift (entry self index);
  is_file p.

Definition __setitem__ (self : t) (index : Z) (data : Value) : IO unit :=
  p ← lift (entry self index);
  h ← open_wb p;
  with_stmt h file_enter file_close (λ file, pickle_dump data file).

Definition __getitem__ (self : t) (index : Z) : IO Value :=
  p ← lift (entry self index);
  h ← open_rb p;
  with_stmt h file_enter file_close (λ file, pickle_load file).

Definition clean (self : t) : IO unit :=
  d ← is_dir (path self);
  if (d : bool) then rmtree (path self) else mret ().

(** [home self fs]: the place of the cacher's directory holds a
    directory or nothing, and is there to hold one. *)
Definition home (self : t) (fs : place) : Prop :=
  slot (path self) fs = Ok None
  ∨ is_dir_node (resolve (path self) fs) = true.

Definition __enter__ (self : t) : IO t := mret self.

Definition __exit__ (self : t) : IO unit := clean self.

(** The calls a cacher receives from the code that uses it. *)
Inductive call :=
  | Contains (index : Z)
  | SetItem (index : Z) (data : Value)
  | GetItem (index : Z)
  | Clean.

Definition perform (self : t) (c : call) : IO unit :=
  match c with
  | Contains i => _ ← __contains__ self i; mret ()
  | SetItem i v => __setitem__ self i v
  | GetItem i => _ ← __getitem__ self i; mret ()
  | Clean => clean self
  end.

(** A block of statements, as far as the cacher is concerned: each
    statement is a call on the cacher or raises an exception of its own;
    the first exception ends the block. *)
Inductive stmt :=
  | Call (c : call)
  | Throw (e : exn).

Fixpoint block (self : t) (ss : list stmt) : IO unit :=
  match ss with
  | [] => mret ()
  | Call c :: ss' => _ ← perform self c; block self ss'
  | Throw e :: _ => raise e
  end.

(** [with Pickle(path, extension) as cacher: block] *)
Definition scoped (path : Path) (extension : string) (ss : list stmt)
    : IO unit :=
  mgr ← __init__ path extension;
  with_stmt mgr __enter__ __exit__ (λ cacher, block cacher ss).

(** The file system after a series of calls, each made whether or not
    the ones before it raised. *)
Definition after (self : t) (cs : list call) (fs : place) : place :=
  foldl (λ fs c, (perform self c fs).2) fs cs.

Definition sets_index (i : Z) (c : call) : bool :=
  match c with SetItem j _ => bool_decide (j = i) | _ => false end.

End Pickler.

End Pickle.

(** ** class Memory(Cacher) *)

Module Memory.

Section Values.

Context {Value : Type}.

Record t := { cache : gmap Z Value }.

Definition __init__ : t := {| cache := ∅ |}.

Definition __contains__ (self : t) (index : Z) : bool :=
  bool_decide (is_Some (cache self !! index)).

Definition __setitem__ (self : t) (index : Z) (data : Value) : t :=
  {| cache := <[index:=data]> (cache self) |}.

Definition __getitem__ (self : t) (index : Z) : result Value :=
  match cache self !! index with
  | Some v => Ok v
  | None => Raise KeyError
  end.

(** The cacher after a series of [__setitem__] calls on a new one. *)
Definition after (sets : list (Z * Value)) : t :=
  foldl (λ m s, __setitem__ m s.1 s.2) __init__ sets.

End Values.

End Memory.

(** ** A serializer and a directory to run the model on *)

Module Sample.

(** Numbers pickled in unary; a negative number cannot be pickled. *)
Definition dumps (v : Z) : option bytes :=
  if decide (0 ≤ v)%Z then Some (replicate (Z.to_nat v) Byte.x01) else None.

Definition loads (b : bytes) : option Z := Some (Z.of_nat (length b)).

Definition cacher : Pickle.t :=
  {| Pickle.path := ["tmp"; "cache"];
     Pickle.extension := Pickle.default_extension |}.

(** The same directory with an extension that lacks its dot. *)
Definition dotless : Pickle.t :=
  {| Pickle.path := ["tmp"; "cache"]; Pickle.extension := "pkl" |}.

(** [/tmp] with nothing in it, and with the empty cache directory. *)
Definition bare : place := Some (Dir {[ "tmp" := Dir ∅ ]}).
Definition disk : place :=
  Some (Dir {[ "tmp" := Dir {[ "cache" := Dir ∅ ]} ]}).

End Sample.

(** ** The two backends side by side *)

Module Backends.

Section Values.

Context {Value : Type}.
Variable pickle_dumps : Value → option bytes.
Variable pickle_loads : bytes → option Value.

(** [agrees self m fs]: the directory of [self] is there and holds the
    dict of [m], one regular file per key with the pickled value, and no
    entry for an index that is no key. *)
Definition agrees (self : Pickle.t) (m : Memory.t) (fs : place) : Prop :=
  is_dir_node (resolve (Pickle.path self) fs) = true
  ∧ ∀ i, match Memory.cache m !! i with
         | Some v =>
             ∃ b, pickle_dumps v = Some b ∧ pickle_loads b = Some v
                  ∧ resolve (Pickle.file_path self i) fs = Ok (File b)
         | None =>
             resolve (Pickle.file_path self i) fs = Raise FileNotFoundError
         end.

(** The outcome of a lookup on disk for its outcome in memory: a missing
    key is a missing file. *)
Definition on_disk (r : result Value) : result Value :=
  match r with
  | Ok v => Ok v
  | Raise _ => Raise FileNotFoundError
  end.

(** The [__setitem__] calls of a series of pairs. *)
Definition set_calls (sets : list (Z * Value)) : list Pickle.call :=
  map (λ s, Pickle.SetItem s.1 s.2) sets.

End Values.

End Backends.

(** ** More cachers and directories to run the model on *)

Module Others.

(** A second cacher on the sample directory, with an extension of its
    own. *)
Definition binary : Pickle.t :=
  {| Pickle.path := ["tmp"; "cache"]; Pickle.extension := ".bin" |}.

(** A regular file in the place of [/tmp]. *)
Definition blocked : place := Some (Dir {[ "tmp" := File [] ]}).

(** A cacher in a directory beside the sample directory, and [/tmp] with
    the two directories. *)
Definition beside : Pickle.t :=
  {| Pickle.path := ["tmp"; "other"];
     Pickle.extension := Pickle.default_extension |}.
Definition both : place :=
  Some (Dir {[ "tmp" := Dir {[ "cache" := Dir ∅; "other" := Dir ∅ ]} ]}).

(** The sample directory with a directory of the name of entry 0. *)
Definition taken : place :=
  Some (Dir {[ "tmp" := Dir {[ "cache" := Dir {[ "0.pkl" := Dir ∅ ]} ]} ]}).

End Others.

(** * Facts about the model *)

(** ** Decimal strings and string append *)

Module StrFacts.
Import Str.

Lemma rfind_None c s : contains_char c s = false → rfind c s = None.
Proof.
  induction s as [|a s IH]; simpl; [done|].
  destruct (decide (a = c)); [done|]. intros H. by rewrite IH.
Qed.

Lemma contains_char_app c s1 s2 :
  contains_char c (s1 +:+ s2) = contains_char c s1 || contains_char c s2.
Proof.
  induction s1 as [|a s1 IH]; simpl; [done|].
  by destruct (decide (a = c)).
Qed.

Lemma pretty_N_char_not c x :
  contains_char c "0123456789" = false → pretty_N_char x ≠ c.
Proof.
  intros H E. subst c. revert H. unfold pretty_N_char.
  repeat case_match; vm_compute; discriminate.
Qed.

Lemma pretty_N_go_no_char c x s :
  contains_char c "0123456789" = false →
  contains_char c s = false → contains_char c (pretty_N_go x s) = false.
Proof.
  intros Hc. revert s. induction (N.lt_wf_0 x) as [x _ IH]; intros s Hs.
  destruct (decide (x = 0)%N) as [->|].
  - by rewrite pretty_N_go_0.
  - rewrite pretty_N_go_step by lia. apply IH.
    + apply N.div_lt; lia.
    + simpl. destruct (decide _) as [E|]; [|done].
      by apply pretty_N_char_not in E.
Qed.

Lemma pretty_N_no_char c (x : N) :
  contains_char c "0123456789" = false → contains_char c (pretty x) = false.
Proof.
  intros Hc. unfold pretty, pretty_N. case_decide.
  - revert Hc. cbn. by destruct (decide _).
  - by apply pretty_N_go_no_char.
Qed.

Lemma pretty_Z_no_char c (i : Z) :
  c ≠ "-"%char → contains_char c "0123456789" = false →
  contains_char c (pretty i) = false.
Proof.
  intros Hm Hc. destruct i as [|p|p]; unfold pretty, pretty_Z.
  - revert Hc. cbn. by destruct (decide _).
  - by apply (pretty_N_no_char c (Npos p)).
  - rewrite contains_char_app. apply orb_false_intro.
    + cbn. by destruct (decide _).
    + by apply (pretty_N_no_char c (Npos p)).
Qed.

Lemma pretty_N_go_length x s :
  String.length s ≤ String.length (pretty_N_go x s).
Proof.
  revert s. induction (N.lt_wf_0 x) as [x _ IH]; intros s.
  destruct (decide (x = 0)%N) as [->|].
  - by rewrite pretty_N_go_0.
  - rewrite pretty_N_go_step by lia.
    etrans; [|apply IH; apply N.div_lt; lia]. simpl. lia.
Qed.

Lemma pretty_Z_nonempty (i : Z) : pretty i ≠ "".
Proof.
  assert (∀ p : positive, pretty (Npos p) ≠ "") as Hp.
  { intros p. unfold pretty, pretty_N. case_decide; [done|].
    rewrite pretty_N_go_step by lia. intros E.
    pose proof (pretty_N_go_length (N.pos p `div` 10)
      (String (pretty_N_char (N.pos p `mod` 10)) "")) as Hl.
    rewrite E in Hl. simpl in Hl. lia. }
  destruct i as [|p|p]; unfold pretty, pretty_Z; [done|apply Hp|done].
Qed.

Lemma string_length_app (s1 s2 : string) :
  String.length (s1 +:+ s2) = String.length s1 + String.length s2.
Proof. induction s1 as [|a s1 IH]; simpl; [done|]. by rewrite IH. Qed.

Lemma app_inj_r (s1 s2 e : string) : s1 +:+ e = s2 +:+ e → s1 = s2.
Proof.
  revert s2. induction s1 as [|a s1 IH]; intros [|b s2] H.
  - done.
  - apply (f_equal String.length) in H.
    rewrite !string_length_app in H. simpl in H. lia.
  - apply (f_equal String.length) in H.
    rewrite !string_length_app in H. simpl in H. lia.
  - simpl in H. injection H as -> H. f_equal. by apply IH.
Qed.

End StrFacts.

(** ** Places and paths *)

Module FsFacts.

Lemma slot_app p q fs : slot (p ++ q) fs = slot p fs ≫= slot q.
Proof.
  revert fs. induction p as [|x p IH]; intros fs; simpl; [done|].
  destruct fs as [[|es]|]; [done|apply IH|done].
Qed.

Lemma resolve_app p q fs : resolve (p ++ q) fs = slot p fs ≫= resolve q.
Proof.
  unfold resolve. rewrite slot_app. by destruct (slot p fs).
Qed.

Lemma resolve_nil fs : resolve [] fs = found fs.
Proof. done. Qed.

Lemma resolve_nothing q : resolve q None = Raise FileNotFoundError.
Proof. by destruct q. Qed.

Lemma resolve_cons x q es : resolve (x :: q) (Some (Dir es)) = resolve q (es !! x).
Proof. done. Qed.

Lemma resolve_slot p fs n : resolve p fs = Ok n ↔ slot p fs = Ok (Some n).
Proof.
  unfold resolve. destruct (slot p fs) as [[m|]|e]; simpl; split; congruence.
Qed.

(** What is missing at a place is missing below it. *)
Lemma resolve_below_nothing p q fs :
  slot p fs = Ok None → resolve (p ++ q) fs = Raise FileNotFoundError.
Proof. intros H. rewrite resolve_app, H. apply resolve_nothing. Qed.

Lemma slot_raises p fs e :
  slot p fs = Raise e → e = FileNotFoundError ∨ e = NotADirectoryError.
Proof.
  revert fs. induction p as [|x p IH]; intros [[|es]|]; simpl; try done.
  - intros [= <-]. by right.
  - apply IH.
  - intros [= <-]. by left.
Qed.

Lemma resolve_raises p fs e :
  resolve p fs = Raise e → e = FileNotFoundError ∨ e = NotADirectoryError.
Proof.
  unfold resolve. destruct (slot p fs) as [[n|]|e0] eqn:E; simpl; try done.
  - intros [= <-]. by left.
  - intros [= <-]. by eapply slot_raises.
Qed.

(** The place of a name in a directory. *)
Lemma slot_snoc p x fs :
  slot (p ++ [x]) fs
  = n ← resolve p fs;
    match n with
    | File _ => Raise NotADirectoryError
    | Dir es => Ok (es !! x)
    end.
Proof.
  rewrite slot_app. unfold resolve.
  destruct (slot p fs) as [[[|es]|]|]; done.
Qed.

Lemma slot_snoc_Ok p x fs o :
  slot (p ++ [x]) fs = Ok o → is_dir_node (resolve p fs) = true.
Proof.
  rewrite slot_snoc. by destruct (resolve p fs) as [[|es]|].
Qed.

Lemma slot_in_dir p x fs :
  is_dir_node (resolve p fs) = true → ∃ o, slot (p ++ [x]) fs = Ok o.
Proof.
  rewrite slot_snoc. destruct (resolve p fs) as [[|es]|]; try done. eauto.
Qed.

(** Below a path that resolves, the way leads through directories. *)
Lemma resolve_prefix p q fs n :
  resolve (p ++ q) fs = Ok n → q ≠ [] → is_dir_node (resolve p fs) = true.
Proof.
  intros H Hq. rewrite resolve_app in H. unfold resolve at 1.
  destruct (slot p fs) as [[[|es]|]|]; simpl in *; try done.
  - by destruct q.
  - by rewrite resolve_nothing in H.
Qed.

(** ENOTDIR names a regular file on the way. *)
Lemma slot_NotADirectory p fs :
  slot p fs = Raise NotADirectoryError →
  ∃ q, q `prefix_of` p ∧ q ≠ p ∧ is_file_node (resolve q fs) = true.
Proof.
  revert fs. induction p as [|x p IH]; intros [[|es]|]; simpl; try done.
  - intros _. exists []. split; [apply prefix_nil|done].
  - intros H. destruct (IH _ H) as (q & Hq & Hne & Hf). exists (x :: q).
    split; [by apply prefix_cons|]. split; [congruence|done].
Qed.

Lemma resolve_NotADirectory p fs :
  resolve p fs = Raise NotADirectoryError →
  ∃ q, q `prefix_of` p ∧ q ≠ p ∧ is_file_node (resolve q fs) = true.
Proof.
  unfold resolve at 1. destruct (slot p fs) as [[n|]|e] eqn:E; simpl; try done.
  intros [= ->]. by apply slot_NotADirectory.
Qed.

(** *** [at_path] *)

Lemma lookup_fill x o es : fill x o es !! x = o.
Proof.
  destruct o; simpl; [apply lookup_insert_eq|apply lookup_delete_eq].
Qed.

Lemma lookup_fill_ne x y o es : x ≠ y → fill x o es !! y = es !! y.
Proof.
  intros H. destruct o; simpl;
    [by apply lookup_insert_ne|by apply lookup_delete_ne].
Qed.

Lemma fill_fill x o o' es : fill x o' (fill x o es) = fill x o' es.
Proof.
  destruct o, o'; simpl.
  - apply insert_insert_eq.
  - apply delete_insert_eq.
  - apply insert_delete_eq.
  - apply delete_delete_eq.
Qed.

Lemma at_path_Ok p f fs fs' :
  at_path p f fs = Ok fs' →
  ∃ o o', slot p fs = Ok o ∧ f o = Ok o' ∧ slot p fs' = Ok o'.
Proof.
  revert fs fs'. induction p as [|x p IH]; intros fs fs'; simpl.
  - intros H. eauto.
  - destruct fs as [[|es]|]; try done.
    destruct (at_path p f (es !! x)) as [o1|] eqn:E; [|done].
    intros [= <-]. apply IH in E as (o & o' & ? & ? & ?).
    exists o, o'. by rewrite lookup_fill.
Qed.

Lemma at_path_returns p f fs o o' :
  slot p fs = Ok o → f o = Ok o' → ∃ fs', at_path p f fs = Ok fs'.
Proof.
  revert fs. induction p as [|x p IH]; intros fs; simpl.
  - intros [= ->] ->. eauto.
  - destruct fs as [[|es]|]; try done. intros Hs Hf.
    destruct (IH _ Hs Hf) as [o1 ->]. eauto.
Qed.

Lemma at_path_unresolved p f fs e :
  slot p fs = Raise e → at_path p f fs = Raise e.
Proof.
  revert fs. induction p as [|x p IH]; intros fs; simpl; [done|].
  destruct fs as [[|es]|]; try done. intros Hs. by rewrite (IH _ Hs).
Qed.

Lemma at_path_refused p f fs o e :
  slot p fs = Ok o → f o = Raise e → at_path p f fs = Raise e.
Proof.
  revert fs. induction p as [|x p IH]; intros fs; simpl.
  - by intros [= ->] ->.
  - destruct fs as [[|es]|]; try done. intros Hs Hf.
    by rewrite (IH _ Hs Hf).
Qed.

Lemma at_path_Raise p f fs e :
  at_path p f fs = Raise e →
  slot p fs = Raise e ∨ ∃ o, slot p fs = Ok o ∧ f o = Raise e.
Proof.
  intros H. destruct (slot p fs) as [o|e0] eqn:Hs.
  - destruct (f o) as [o'|e1] eqn:Hf.
    + destruct (at_path_returns _ _ _ _ _ Hs Hf) as [fs' E]. congruence.
    + rewrite (at_path_refused _ _ _ _ _ Hs Hf) in H. injection H as <-.
      eauto.
  - rewrite (at_path_unresolved _ _ _ _ Hs) in H. injection H as <-. auto.
Qed.

(** Two rewrites of the same place are one. *)
Lemma at_path_twice p f g fs fs1 :
  at_path p f fs = Ok fs1 →
  at_path p g fs1 = at_path p (λ o, f o ≫= g) fs.
Proof.
  revert fs fs1. induction p as [|x p IH]; intros fs fs1; simpl.
  - by intros ->.
  - destruct fs as [[|es]|]; try done.
    destruct (at_path p f (es !! x)) as [o1|] eqn:E; [|done].
    intros [= <-]. simpl. rewrite lookup_fill, (IH _ _ E).
    destruct (at_path p (λ o, f o ≫= g) (es !! x)) as [o2|]; [|done].
    simpl. by rewrite fill_fill.
Qed.

(** A rewrite shows only at its path and below. *)
Lemma at_path_frame p f fs fs' :
  at_path p f fs = Ok fs' →
  ∀ q, ¬ p `prefix_of` q → view (resolve q fs') = view (resolve q fs).
Proof.
  revert fs fs'. induction p as [|x p IH]; intros fs fs'; simpl.
  - intros _ q Hq. destruct Hq. apply prefix_nil.
  - destruct fs as [[|es]|]; try done.
    destruct (at_path p f (es !! x)) as [o1|] eqn:E; [|done].
    intros [= <-] [|y q] Hq; [done|]. rewrite !resolve_cons.
    destruct (decide (x = y)) as [<-|Hxy].
    + rewrite lookup_fill. apply (IH _ _ E).
      intros Hp. apply Hq. by apply prefix_cons.
    + by rewrite lookup_fill_ne.
Qed.

End FsFacts.

(** ** Making directories *)

Module MkdirFacts.
Import FsFacts.

Lemma view_returned r r' : view r' = view r → returned r' = returned r.
Proof. destruct r as [[]|], r' as [[]|]; simpl; congruence. Qed.

Lemma view_is_dir r r' : view r' = view r → is_dir_node r' = is_dir_node r.
Proof. destruct r as [[]|], r' as [[]|]; simpl; congruence. Qed.

Lemma view_is_file r r' : view r' = view r → is_file_node r' = is_file_node r.
Proof. destruct r as [[]|], r' as [[]|]; simpl; congruence. Qed.

Lemma not_file_is_dir r :
  returned r = true → is_file_node r = false → is_dir_node r = true.
Proof. by destruct r as [[]|]. Qed.

Lemma grows_refl p fs : grows p fs fs.
Proof. split; [done|]. intros q ->. done. Qed.

Lemma grows_trans p1 p2 fs fs1 fs2 :
  p1 `prefix_of` p2 → grows p1 fs fs1 → grows p2 fs1 fs2 → grows p2 fs fs2.
Proof.
  intros Hp [F1 N1] [F2 N2]. split.
  - intros q Hq. rewrite F2, F1; [done..|].
    by rewrite (view_returned _ _ (F1 q Hq)).
  - intros q Hq2 Hq. destruct (returned (resolve q fs1)) eqn:Hq1.
    + destruct (N1 q Hq1 Hq) as [Hpre Hd]. split; [by etrans|].
      by rewrite (view_is_dir _ _ (F2 q Hq1)).
    + by apply N2.
Qed.

(** What [os.mkdir] does, case by case. *)
Lemma os_mkdir_Ok p fs fs' :
  os_mkdir p fs = (Ok (), fs') →
  slot p fs = Ok None ∧ resolve p fs' = Ok (Dir ∅) ∧ grows p fs fs'.
Proof.
  unfold os_mkdir, modify.
  destruct (at_path p add_dir fs) as [fs1|] eqn:Ha; [|done]. intros [= <-].
  pose proof Ha as (o & o' & Hs & Hf & Hs')%at_path_Ok.
  destruct o; [done|]. injection Hf as <-.
  split; [done|]. split; [by apply resolve_slot|].
  pose proof (at_path_frame _ _ _ _ Ha) as Hframe. split.
  - intros q Hq. apply Hframe. intros [r ->].
    by rewrite resolve_below_nothing in Hq.
  - intros q Hq' Hq.
    destruct (decide (p `prefix_of` q)) as [[r ->]|Hn].
    + rewrite resolve_app, Hs' in Hq' |- *. simpl in *.
      destruct r as [|x r]; [by rewrite app_nil_r|].
      by rewrite resolve_cons, lookup_empty, resolve_nothing in Hq'.
    + rewrite (view_returned _ _ (Hframe q Hn)) in Hq'. congruence.
Qed.

Lemma os_mkdir_Raise p fs e fs' :
  os_mkdir p fs = (Raise e, fs') →
  fs' = fs
  ∧ ((e = FileExistsError ∧ returned (resolve p fs) = true)
     ∨ (e = FileNotFoundError ∧ slot p fs = Raise FileNotFoundError)
     ∨ (e = NotADirectoryError
        ∧ ∃ q, q `prefix_of` p ∧ q ≠ p ∧ is_file_node (resolve q fs) = true)).
Proof.
  unfold os_mkdir, modify.
  destruct (at_path p add_dir fs) as [fs1|e0] eqn:Ha; [done|].
  intros [= -> <-]. split; [done|].
  apply at_path_Raise in Ha as [Hs|(o & Hs & Hf)].
  - destruct (slot_raises _ _ _ Hs) as [-> | ->]; [by auto|].
    right; right. split; [done|]. by apply slot_NotADirectory.
  - left. destruct o as [n|]; [|done]. injection Hf as <-.
    split; [done|]. apply resolve_slot in Hs. by rewrite Hs.
Qed.

(** [mkdir(parents=True, exist_ok=True)]: when it returns, the directory
    is there and the file system has only grown towards it. *)
Lemma mkdir_handle_Ok p e fs fs' :
  mkdir_handle p true e fs = (Ok (), fs') →
  fs' = fs ∧ is_dir_node (resolve p fs) = true.
Proof.
  unfold mkdir_handle, is_dir, inspect, mbind, IO_bind. simpl.
  destruct (is_dir_node (resolve p fs)); simpl; [|done]. by intros [= <-].
Qed.

Lemma mkdir_handle_dir p e fs :
  is_dir_node (resolve p fs) = true → mkdir_handle p true e fs = (Ok (), fs).
Proof.
  intros H. unfold mkdir_handle, is_dir, inspect, mbind, IO_bind. simpl.
  by rewrite H.
Qed.

Lemma mkdir_noparents_Ok p fs fs' :
  mkdir_noparents p true fs = (Ok (), fs') →
  is_dir_node (resolve p fs') = true ∧ grows p fs fs'.
Proof.
  unfold mkdir_noparents. destruct (os_mkdir p fs) as [[[]|e] fs1] eqn:Eo.
  - intros [= <-]. apply os_mkdir_Ok in Eo as (_ & Hr' & Hg).
    by rewrite Hr'.
  - apply os_mkdir_Raise in Eo as [-> _].
    destruct e; try done;
      intros [-> ?]%mkdir_handle_Ok; (split; [done|apply grows_refl]).
Qed.

Lemma mkdir_rev_Ok rp fs fs' :
  mkdir_rev rp true true fs = (Ok (), fs') →
  is_dir_node (resolve (rev rp) fs') = true ∧ grows (rev rp) fs fs'.
Proof.
  revert fs fs'. induction rp as [|x rp IH]; intros fs fs';
    cbn [mkdir_rev];
    destruct (os_mkdir _ fs) as [[[]|e] fs1] eqn:Eo.
  - intros [= <-]. apply os_mkdir_Ok in Eo as (_ & Hr' & Hg). by rewrite Hr'.
  - apply os_mkdir_Raise in Eo as [-> _].
    destruct e; try done;
      intros [-> ?]%mkdir_handle_Ok; (split; [done|apply grows_refl]).
  - intros [= <-]. apply os_mkdir_Ok in Eo as (_ & Hr' & Hg). by rewrite Hr'.
  - apply os_mkdir_Raise in Eo as [-> _].
    destruct e; try done;
      try (intros [-> ?]%mkdir_handle_Ok; (split; [done|apply grows_refl])).
    simpl negb. cbv iota. unfold mbind at 1, IO_bind at 1.
    destruct (mkdir_rev rp true true fs) as [[[]|e] fs2] eqn:Er; [|done].
    apply IH in Er as [_ Hg]. intros [Hd Hg']%mkdir_noparents_Ok.
    split; [done|]. eapply grows_trans; [|done..].
    simpl. by apply prefix_app_r.
Qed.

(** When no regular file is in the way, the directory gets made. *)
Lemma mkdir_noparents_returns parent name fs :
  is_dir_node (resolve parent fs) = true →
  is_file_node (resolve (parent ++ [name]) fs) = false →
  ∃ fs', mkdir_noparents (parent ++ [name]) true fs = (Ok (), fs').
Proof.
  intros Hd Hf. unfold mkdir_noparents.
  destruct (os_mkdir (parent ++ [name]) fs) as [[[]|e] fs1] eqn:Eo; [eauto|].
  apply os_mkdir_Raise in Eo as [-> [[-> Hr]|[[-> Hr]|[-> Hr]]]].
  - rewrite mkdir_handle_dir; [eauto|]. by apply not_file_is_dir.
  - destruct (slot_in_dir parent name fs Hd) as [o Ho]. congruence.
  - destruct Hr as (q & [r Hq] & Hne & Hfq).
    assert (q `prefix_of` parent) as [r' ->].
    { destruct r as [|x r _] using rev_ind.
      - rewrite app_nil_r in Hq. congruence.
      - rewrite app_assoc in Hq. apply app_inj_tail in Hq as [-> _].
        by apply prefix_app_r. }
    destruct r' as [|y r'].
    + rewrite app_nil_r in Hd. by destruct (resolve q fs) as [[]|].
    + destruct (resolve (q ++ y :: r') fs) as [n|] eqn:E; [|done].
      apply resolve_prefix in E; [|done].
      by destruct (resolve q fs) as [[]|].
Qed.

Lemma mkdir_rev_returns rp fs :
  (∀ q, q `prefix_of` rev rp → is_file_node (resolve q fs) = false) →
  ∃ fs', mkdir_rev rp true true fs = (Ok (), fs').
Proof.
  revert fs. induction rp as [|x rp IH]; intros fs Hnf; cbn [mkdir_rev];
    destruct (os_mkdir _ fs) as [[[]|e] fs1] eqn:Eo; [eauto| |eauto|];
    apply os_mkdir_Raise in Eo as [-> [[-> Hr]|[[-> Hr]|[-> Hr]]]].
  - rewrite mkdir_handle_dir; [eauto|]. by apply not_file_is_dir, Hnf.
  - done.
  - destruct Hr as (q & Hq & _ & Hfq). by rewrite Hnf in Hfq.
  - rewrite mkdir_handle_dir; [eauto|]. by apply not_file_is_dir, Hnf.
  - simpl negb. cbv iota. unfold mbind at 1, IO_bind at 1.
    destruct (IH fs) as [fs2 E2].
    { intros q Hq. apply Hnf. simpl. by apply prefix_app_r. }
    rewrite E2. pose proof E2 as [Hd [F1 N1]]%mkdir_rev_Ok.
    simpl rev. apply mkdir_noparents_returns; [done|].
    destruct (returned (resolve (rev rp ++ [x]) fs)) eqn:Hret.
    + rewrite (view_is_file _ _ (F1 _ Hret)). by apply Hnf.
    + destruct (returned (resolve (rev rp ++ [x]) fs2)) eqn:Hret2.
      * destruct (N1 _ Hret2 Hret) as [Hp _].
        apply prefix_length in Hp. rewrite length_app in Hp.
        simpl in Hp. lia.
      * by destruct (resolve (rev rp ++ [x]) fs2).
  - destruct Hr as (q & Hq & _ & Hfq). by rewrite Hnf in Hfq.
Qed.

Lemma os_mkdir_existing p fs :
  returned (resolve p fs) = true →
  os_mkdir p fs = (Raise FileExistsError, fs).
Proof.
  intros H. unfold os_mkdir, modify.
  destruct (resolve p fs) as [n|] eqn:Hr; [|done].
  apply resolve_slot in Hr.
  by rewrite (at_path_refused _ _ _ _ FileExistsError Hr).
Qed.

Lemma mkdir_rev_step rp fs fs' :
  os_mkdir (rev rp) fs = (Ok (), fs') →
  mkdir_rev rp true true fs = (Ok (), fs').
Proof. intros H. destruct rp; cbn [mkdir_rev]; by rewrite H. Qed.

Lemma mkdir_rev_existing rp fs :
  is_dir_node (resolve (rev rp) fs) = true →
  mkdir_rev rp true true fs = (Ok (), fs).
Proof.
  intros H. assert (returned (resolve (rev rp) fs) = true) as Hret
    by by destruct (resolve (rev rp) fs).
  pose proof (os_mkdir_existing _ _ Hret) as Ho.
  destruct rp; cbn [mkdir_rev]; rewrite Ho; by apply mkdir_handle_dir.
Qed.

(** What [grows] keeps: every path shows what it showed, unless it is a
    directory made on the way. *)
Lemma grows_view p fs fs' q :
  grows p fs fs' →
  view (resolve q fs') = view (resolve q fs)
  ∨ (returned (resolve q fs) = false ∧ q `prefix_of` p
     ∧ is_dir_node (resolve q fs') = true).
Proof.
  intros [F N]. destruct (returned (resolve q fs)) eqn:Hq; [left; by apply F|].
  destruct (returned (resolve q fs')) eqn:Hq'.
  - right. by destruct (N q Hq' Hq).
  - left. destruct (resolve q fs) as [|e] eqn:E, (resolve q fs') as [|e'] eqn:E';
      try done. simpl.
    destruct (resolve_raises _ _ _ E) as [-> | ->],
      (resolve_raises _ _ _ E') as [-> | ->]; try done.
    + apply resolve_NotADirectory in E' as (q0 & [r ->] & Hne & Hf0).
      assert (r ≠ []) as Hr by (intros ->; by rewrite app_nil_r in Hne).
      destruct (returned (resolve q0 fs)) eqn:H0.
      * rewrite (view_is_file _ _ (F q0 H0)) in Hf0.
        rewrite resolve_app in E. unfold resolve in Hf0.
        destruct (slot q0 fs) as [[[]|]|]; try done. by destruct r.
      * destruct (N q0) as [_ Hd]; [by destruct (resolve q0 fs')|done|].
        by destruct (resolve q0 fs') as [[]|].
    + apply resolve_NotADirectory in E as (q0 & [r ->] & Hne & Hf0).
      assert (r ≠ []) as Hr by (intros ->; by rewrite app_nil_r in Hne).
      assert (returned (resolve q0 fs) = true) as H0
        by by destruct (resolve q0 fs).
      rewrite <-(view_is_file _ _ (F q0 H0)) in Hf0.
      rewrite resolve_app in E'. unfold resolve in Hf0.
      destruct (slot q0 fs') as [[[]|]|]; try done. by destruct r.
Qed.

Lemma grows_is_file p fs fs' q :
  grows p fs fs' → is_file_node (resolve q fs') = is_file_node (resolve q fs).
Proof.
  intros H. destruct (grows_view _ _ _ q H) as [Hv|(Hr & _ & Hd)].
  - by apply view_is_file.
  - by destruct (resolve q fs) as [[]|], (resolve q fs') as [[]|].
Qed.

End MkdirFacts.

(** ** Paths and the names of the entries *)

Module PathlibFacts.
Import StrFacts Pathlib.

Lemma unsnoc_snoc (p : Path) x : unsnoc (p ++ [x]) = Some (p, x).
Proof. induction p as [|y p IH]; simpl; [done|]. by rewrite IH. Qed.

Lemma name_snoc (p : Path) x : name (p ++ [x]) = x.
Proof. unfold name. by rewrite unsnoc_snoc. Qed.

Lemma parent_snoc (p : Path) x : parent (p ++ [x]) = p.
Proof. unfold parent. by rewrite unsnoc_snoc. Qed.

Lemma suffix_no_dot (p : Path) x :
  Str.contains_char "." x = false → suffix (p ++ [x]) = "".
Proof. intros H. unfold suffix. by rewrite name_snoc, rfind_None. Qed.

Lemma with_suffix_invalid p sfx :
  valid_suffix sfx = false → with_suffix p sfx = Raise ValueError.
Proof.
  unfold valid_suffix, with_suffix.
  destruct (Str.contains_char "/" sfx); [done|].
  destruct (bool_decide (sfx = "")), (Str.startswith_char "." sfx),
    (bool_decide (sfx = ".")); simpl; done.
Qed.

Lemma with_suffix_valid p x sfx :
  valid_suffix sfx = true → x ≠ "" → Str.contains_char "." x = false →
  with_suffix (p ++ [x]) sfx = Ok (p ++ [x +:+ sfx]).
Proof.
  unfold valid_suffix, with_suffix. intros Hv Hx Hd.
  rewrite suffix_no_dot, name_snoc, parent_snoc by done.
  destruct (Str.contains_char "/" sfx); [done|].
  destruct (bool_decide (sfx = "")), (Str.startswith_char "." sfx),
    (bool_decide (sfx = ".")); simpl in *; try done;
    by rewrite bool_decide_false.
Qed.

Lemma with_suffix_Ok p sfx q :
  with_suffix p sfx = Ok q → valid_suffix sfx = true.
Proof.
  intros H. destruct (valid_suffix sfx) eqn:E; [done|].
  by rewrite with_suffix_invalid in H.
Qed.

End PathlibFacts.

Module PickleFacts.
Import StrFacts FsFacts Pathlib PathlibFacts Pickle.

Lemma entry_valid self i :
  valid_suffix (extension self) = true → entry self i = Ok (file_path self i).
Proof.
  intros Hv. unfold entry, truediv, file_path, file_name.
  apply with_suffix_valid; [done|apply pretty_Z_nonempty|].
  by apply pretty_Z_no_char.
Qed.

Lemma entry_invalid self i :
  valid_suffix (extension self) = false → entry self i = Raise ValueError.
Proof. apply with_suffix_invalid. Qed.

Lemma entry_Ok self i p :
  entry self i = Ok p →
  valid_suffix (extension self) = true ∧ p = file_path self i.
Proof.
  intros H. pose proof (with_suffix_Ok _ _ _ H) as Hv.
  rewrite (entry_valid _ _ Hv) in H. by injection H as <-.
Qed.

Lemma file_name_inj self i j : file_name self i = file_name self j → i = j.
Proof. unfold file_name. intros H%app_inj_r. by apply (inj pretty). Qed.

Lemma file_path_inj self i j : file_path self i = file_path self j → i = j.
Proof.
  unfold file_path. intros [_ H]%app_inj_tail. by apply file_name_inj in H.
Qed.

Lemma snoc_prefix_snoc (p : Path) a x :
  (p ++ [a]) `prefix_of` (p ++ [x]) → a = x.
Proof.
  intros [r H]. rewrite <-app_assoc in H. apply app_inv_head in H.
  by injection H.
Qed.

Lemma snoc_not_prefix (p : Path) a : ¬ (p ++ [a]) `prefix_of` p.
Proof.
  intros H%prefix_length. rewrite length_app in H. simpl in H. lia.
Qed.

End PickleFacts.

(** ** The methods of [Pickle], series of calls and the [with] statement *)

Module PickleOps.
Import StrFacts FsFacts MkdirFacts Pathlib PathlibFacts Pickle PickleFacts.

Section Ops.

Context {Value : Type}.
Variable pickle_dumps : Value → option bytes.
Variable pickle_loads : bytes → option Value.

(** *** [__contains__] *)

Lemma contains_valid self i fs :
  valid_suffix (extension self) = true →
  __contains__ self i fs
  = (Ok (is_file_node (resolve (file_path self i) fs)), fs).
Proof.
  intros Hv. unfold __contains__, lift, mbind, IO_bind.
  by rewrite entry_valid.
Qed.

Lemma contains_invalid self i fs :
  valid_suffix (extension self) = false →
  __contains__ self i fs = (Raise ValueError, fs).
Proof.
  intros Hv. unfold __contains__, lift, mbind, IO_bind.
  by rewrite entry_invalid.
Qed.

Lemma contains_pure self i fs : (__contains__ self i fs).2 = fs.
Proof.
  destruct (valid_suffix (extension self)) eqn:Hv.
  - by rewrite contains_valid.
  - by rewrite contains_invalid.
Qed.

(** *** [__getitem__] *)

Lemma getitem_valid self i fs :
  valid_suffix (extension self) = true →
  __getitem__ pickle_loads self i fs
  = (unpickle pickle_loads (read_node (resolve (file_path self i) fs)), fs).
Proof.
  intros Hv. unfold __getitem__, lift, mbind, IO_bind.
  rewrite entry_valid by done. unfold open_rb, unpickle.
  destruct (read_node (resolve (file_path self i) fs)) as [b|e] eqn:E; [|done].
  unfold with_stmt, file_enter, file_close, pickle_load, file_read, mret,
    IO_ret, mbind, IO_bind, raise.
  rewrite E. simpl. by destruct (pickle_loads b).
Qed.

Lemma getitem_invalid self i fs :
  valid_suffix (extension self) = false →
  __getitem__ pickle_loads self i fs = (Raise ValueError, fs).
Proof.
  intros Hv. unfold __getitem__, lift, mbind, IO_bind.
  by rewrite entry_invalid.
Qed.

Lemma getitem_pure self i fs : (__getitem__ pickle_loads self i fs).2 = fs.
Proof.
  destruct (valid_suffix (extension self)) eqn:Hv.
  - by rewrite getitem_valid.
  - by rewrite getitem_invalid.
Qed.

(** *** [__setitem__] *)

Lemma setitem_valid self i v fs :
  valid_suffix (extension self) = true →
  __setitem__ pickle_dumps self i v fs
  = match at_path (file_path self i) truncate_file fs with
    | Raise e => (Raise e, fs)
    | Ok fs1 =>
        match pickle_dumps v with
        | None => (Raise PicklingError, fs1)
        | Some b =>
            match at_path (file_path self i) (put_file b) fs1 with
            | Ok fs2 => (Ok (), fs2)
            | Raise e => (Raise e, fs1)
            end
        end
    end.
Proof.
  intros Hv. unfold __setitem__, lift, mbind, IO_bind.
  rewrite entry_valid by done. unfold open_wb, mbind, IO_bind, modify.
  destruct (at_path _ _ fs) as [fs1|e]; [|done].
  unfold with_stmt, file_enter, file_close, pickle_dump, mret, IO_ret.
  destruct (pickle_dumps v) as [b|]; [|done].
  unfold file_write, modify. by destruct (at_path _ _ fs1).
Qed.

Lemma setitem_invalid self i v fs :
  valid_suffix (extension self) = false →
  __setitem__ pickle_dumps self i v fs = (Raise ValueError, fs).
Proof.
  intros Hv. unfold __setitem__, lift, mbind, IO_bind.
  by rewrite entry_invalid.
Qed.

(** When [__setitem__] returns, the pickled value is in the regular file
    of the entry, in the directory that was there, and everything else
    is as before. *)
Lemma setitem_Ok self i v fs fs' :
  __setitem__ pickle_dumps self i v fs = (Ok (), fs') →
  valid_suffix (extension self) = true
  ∧ is_dir_node (resolve (path self) fs) = true
  ∧ is_dir_node (resolve (path self) fs') = true
  ∧ (∃ b, pickle_dumps v = Some b
          ∧ resolve (file_path self i) fs' = Ok (File b))
  ∧ ∀ q, ¬ file_path self i `prefix_of` q →
         view (resolve q fs') = view (resolve q fs).
Proof.
  destruct (valid_suffix (extension self)) eqn:Hv;
    [|by rewrite setitem_invalid]. rewrite setitem_valid by done.
  destruct (at_path _ _ fs) as [fs1|] eqn:E1; [|done].
  destruct (pickle_dumps v) as [b|]; [|done].
  destruct (at_path _ _ fs1) as [fs2|] eqn:E2; [|done]. intros [= <-].
  split; [done|]. rewrite (at_path_twice _ _ _ _ _ E1) in E2.
  pose proof E2 as (o & o' & Hs & Hf & Hs')%at_path_Ok.
  split; [by eapply slot_snoc_Ok|]. split; [by eapply slot_snoc_Ok|].
  split; [|by eapply at_path_frame].
  exists b. split; [done|]. apply resolve_slot. rewrite Hs'. f_equal.
  unfold truncate_file, put_file in Hf.
  destruct o as [[]|]; simpl in Hf; congruence.
Qed.

(** It returns when the directory is there, no directory has the entry's
    name and the value can be pickled. *)
Lemma setitem_returns self i v b fs :
  valid_suffix (extension self) = true →
  is_dir_node (resolve (path self) fs) = true →
  is_dir_node (resolve (file_path self i) fs) = false →
  pickle_dumps v = Some b →
  ∃ fs', __setitem__ pickle_dumps self i v fs = (Ok (), fs').
Proof.
  intros Hv Hd Hnd Hb. rewrite setitem_valid, Hb by done.
  destruct (slot_in_dir _ (file_name self i) _ Hd) as [o Ho].
  fold (file_path self i) in Ho.
  assert (truncate_file o = Ok (Some (File []))) as Ht.
  { unfold resolve in Hnd. rewrite Ho in Hnd. by destruct o as [[]|]. }
  destruct (at_path_returns _ _ _ _ _ Ho Ht) as [fs1 E1]. rewrite E1.
  rewrite (at_path_twice _ _ _ _ _ E1).
  edestruct (at_path_returns (file_path self i)
    (λ o, truncate_file o ≫= put_file b)) as [fs2 E2]; [done| |].
  { by rewrite Ht. }
  rewrite E2. eauto.
Qed.

(** Whatever comes of a call, it left the file system as it was or
    rewrote the place of the entry. *)
Lemma setitem_effect self i v fs :
  (__setitem__ pickle_dumps self i v fs).2 = fs
  ∨ ∃ f, at_path (file_path self i) f fs
         = Ok (__setitem__ pickle_dumps self i v fs).2.
Proof.
  destruct (valid_suffix (extension self)) eqn:Hv;
    [|rewrite setitem_invalid by done; by left].
  rewrite setitem_valid by done.
  destruct (at_path _ _ fs) as [fs1|] eqn:E1; [|by left].
  destruct (pickle_dumps v) as [b|]; [|by eauto].
  destruct (at_path _ _ fs1) as [fs2|] eqn:E2; [|by eauto].
  right. rewrite (at_path_twice _ _ _ _ _ E1) in E2. eauto.
Qed.

(** *** [clean] *)

Lemma clean_absent self fs :
  is_dir_node (resolve (path self) fs) = false → clean self fs = (Ok (), fs).
Proof.
  intros H. unfold clean, is_dir, inspect, mbind, IO_bind. by rewrite H.
Qed.

Lemma clean_unfold self fs :
  is_dir_node (resolve (path self) fs) = true →
  clean self fs = rmtree (path self) fs.
Proof.
  intros H. unfold clean, is_dir, inspect, mbind, IO_bind. by rewrite H.
Qed.

Lemma clean_present self fs :
  is_dir_node (resolve (path self) fs) = true →
  ∃ fs', clean self fs = (Ok (), fs')
         ∧ slot (path self) fs' = Ok None
         ∧ ∀ q, ¬ path self `prefix_of` q →
                view (resolve q fs') = view (resolve q fs).
Proof.
  intros H. rewrite clean_unfold by done. unfold rmtree, modify.
  destruct (resolve (path self) fs) as [[|es]|] eqn:Hr; try done.
  apply resolve_slot in Hr.
  destruct (at_path_returns _ remove_dir _ _ None Hr) as [fs' E]; [done|].
  rewrite E. exists fs'. split; [done|]. split; [|by eapply at_path_frame].
  apply at_path_Ok in E as (o & o' & Hs & Hf & Hs'). rewrite Hr in Hs.
  injection Hs as <-. by injection Hf as <-.
Qed.

Lemma clean_effect self fs :
  (clean self fs).2 = fs
  ∨ ((clean self fs).1 = Ok () ∧ slot (path self) (clean self fs).2 = Ok None).
Proof.
  destruct (is_dir_node (resolve (path self) fs)) eqn:H.
  - right. by destruct (clean_present _ _ H) as (fs' & -> & ? & _).
  - left. by rewrite clean_absent.
Qed.

(** [clean] returns on every file system, and leaves the file system
    alone or nothing at the path. *)
Lemma clean_returns self fs : (clean self fs).1 = Ok ().
Proof.
  destruct (is_dir_node (resolve (path self) fs)) eqn:H.
  - by destruct (clean_present _ _ H) as (fs' & -> & _).
  - by rewrite clean_absent.
Qed.

End Ops.

End PickleOps.

Module PickleLife.
Import StrFacts FsFacts MkdirFacts Pathlib PathlibFacts.
Import Pickle PickleFacts PickleOps.

(** *** [__init__] *)

Lemma init_unfold p ext fs :
  __init__ p ext fs
  = match mkdir p true true fs with
    | (Ok _, fs') => (Ok {| path := p; extension := ext |}, fs')
    | (Raise e, fs') => (Raise e, fs')
    end.
Proof. done. Qed.

Lemma init_Ok p ext fs self fs' :
  __init__ p ext fs = (Ok self, fs') →
  self = {| path := p; extension := ext |}
  ∧ is_dir_node (resolve p fs') = true ∧ grows p fs fs'.
Proof.
  rewrite init_unfold. unfold mkdir.
  destruct (mkdir_rev (rev p) true true fs) as [[[]|e] fs1] eqn:E; [|done].
  intros [= <- <-]. apply mkdir_rev_Ok in E. by rewrite rev_involutive in E.
Qed.

Lemma init_returns p ext fs :
  (∀ q, q `prefix_of` p → is_file_node (resolve q fs) = false) →
  ∃ fs', __init__ p ext fs = (Ok {| path := p; extension := ext |}, fs').
Proof.
  intros H. rewrite init_unfold. unfold mkdir.
  destruct (mkdir_rev_returns (rev p) fs) as [fs' ->]; [|eauto].
  by rewrite rev_involutive.
Qed.

(** Construction over a directory that is there changes nothing. *)
Lemma init_existing p ext fs :
  is_dir_node (resolve p fs) = true →
  __init__ p ext fs = (Ok {| path := p; extension := ext |}, fs).
Proof.
  intros H. rewrite init_unfold. unfold mkdir.
  rewrite mkdir_rev_existing; [done|]. by rewrite rev_involutive.
Qed.

(** Construction where the place is free makes the directory, empty. *)
Lemma init_fresh p ext fs :
  slot p fs = Ok None →
  ∃ fs', __init__ p ext fs = (Ok {| path := p; extension := ext |}, fs')
         ∧ resolve p fs' = Ok (Dir ∅).
Proof.
  intros Hs. rewrite init_unfold. unfold mkdir.
  destruct (at_path_returns p add_dir fs None (Some (Dir ∅)) Hs)
    as [fs' E]; [done|].
  assert (os_mkdir p fs = (Ok (), fs')) as Ho.
  { unfold os_mkdir, modify. by rewrite E. }
  rewrite (mkdir_rev_step _ _ fs') by by rewrite rev_involutive.
  exists fs'. split; [done|]. by apply os_mkdir_Ok in Ho as (_ & ? & _).
Qed.

End PickleLife.

Module PickleHistory.
Import StrFacts FsFacts MkdirFacts Pathlib PathlibFacts.
Import Pickle PickleFacts PickleOps PickleLife.

Section History.

Context {Value : Type}.
Variable pickle_dumps : Value → option bytes.
Variable pickle_loads : bytes → option Value.

Abbreviation perform := (perform pickle_dumps pickle_loads).
Abbreviation after := (after pickle_dumps pickle_loads).
Abbreviation block := (block pickle_dumps pickle_loads).

Lemma perform_Contains self i fs : (perform self (Contains i) fs).2 = fs.
Proof.
  pose proof (contains_pure self i fs) as H.
  unfold Pickle.perform, mbind, IO_bind.
  by destruct (__contains__ self i fs) as [[] ?].
Qed.

Lemma perform_GetItem self i fs : (perform self (GetItem i) fs).2 = fs.
Proof.
  pose proof (getitem_pure pickle_loads self i fs) as H.
  unfold Pickle.perform, mbind, IO_bind.
  by destruct (__getitem__ pickle_loads self i fs) as [[] ?].
Qed.

Lemma after_cons self c cs fs :
  after self (c :: cs) fs = after self cs (perform self c fs).2.
Proof. done. Qed.

(** A call that does not set [i] makes no entry for [i]. *)
Lemma perform_keeps_absent self c fs i :
  sets_index i c = false →
  is_file_node (resolve (file_path self i) fs) = false →
  is_file_node (resolve (file_path self i) (perform self c fs).2) = false.
Proof.
  intros Hc Hi. destruct c as [j|j v|j|].
  - by rewrite perform_Contains.
  - simpl in Hc. apply bool_decide_eq_false in Hc. simpl.
    destruct (setitem_effect pickle_dumps self j v fs) as [->|[f E]];
      [done|].
    rewrite <-Hi. apply view_is_file. eapply at_path_frame; [done|].
    intros Hp%snoc_prefix_snoc%file_name_inj. done.
  - by rewrite perform_GetItem.
  - simpl. destruct (clean_effect self fs) as [->|[_ Hs]]; [done|].
    unfold file_path. by rewrite resolve_below_nothing.
Qed.

Lemma after_keeps_absent self cs fs i :
  Forall (λ c, sets_index i c = false) cs →
  is_file_node (resolve (file_path self i) fs) = false →
  is_file_node (resolve (file_path self i) (after self cs fs)) = false.
Proof.
  intros Hcs. revert fs. induction Hcs as [|c cs Hc _ IH]; intros fs Hi;
    [done|].
  rewrite after_cons. by apply IH, perform_keeps_absent.
Qed.

(** The place of the cacher's directory stays one that holds a directory
    or nothing. *)
Lemma perform_keeps_home self c fs :
  home self fs → home self (perform self c fs).2.
Proof.
  intros Hh. destruct c as [j|j v|j|].
  - by rewrite perform_Contains.
  - simpl.
    destruct (setitem_effect pickle_dumps self j v fs) as [->|[f E]];
      [done|].
    apply at_path_Ok in E as (o & o' & _ & _ & Hs').
    right. by eapply slot_snoc_Ok.
  - by rewrite perform_GetItem.
  - simpl. destruct (clean_effect self fs) as [->|[_ Hs]]; [done|by left].
Qed.

Lemma after_keeps_home self cs fs :
  home self fs → home self (after self cs fs).
Proof.
  revert fs. induction cs as [|c cs IH]; intros fs Hh; [done|].
  rewrite after_cons. by apply IH, perform_keeps_home.
Qed.

(** After [clean], nothing is at the path. *)
Lemma clean_home self fs :
  home self fs → slot (path self) (clean self fs).2 = Ok None.
Proof.
  intros [Hs|Hd].
  - rewrite clean_absent; [done|]. unfold resolve. by rewrite Hs.
  - by destruct (clean_present self fs Hd) as (fs' & -> & ? & _).
Qed.

(** A block leaves what some series of calls leaves. *)
Lemma block_after self ss fs :
  ∃ cs, (block self ss fs).2 = after self cs fs.
Proof.
  revert fs. induction ss as [|[c|e] ss IH]; intros fs.
  - by exists [].
  - cbn [Pickle.block]. unfold mbind, IO_bind.
    destruct (perform self c fs) as [[[]|e] fs1] eqn:E.
    + destruct (IH fs1) as [cs Hcs]. exists (c :: cs).
      by rewrite after_cons, E.
    + exists [c]. by rewrite after_cons, E.
  - by exists [].
Qed.

(** The [with] statement over a cacher: [clean] runs on what the block
    left, however the block ended, and the statement ends as the block
    did. *)
Lemma with_cacher {C} self (body : t → IO C) fs :
  with_stmt self __enter__ __exit__ body fs
  = ((body self fs).1, (clean self (body self fs).2).2).
Proof.
  unfold with_stmt, __enter__, __exit__, mret, IO_ret.
  destruct (body self fs) as [[c|e] fs1]; simpl;
    pose proof (clean_returns self fs1) as H;
    by destruct (clean self fs1) as [[[]|e'] fs2].
Qed.

End History.

End PickleHistory.

(** ** Decimal numerals *)

Module DecimalFacts.
Import StrFacts.

Lemma string_app_assoc (s1 s2 s3 : string) :
  (s1 +:+ s2) +:+ s3 = s1 +:+ (s2 +:+ s3).
Proof.
  induction s1 as [|a s1 IH]; [done|].
  change ((String a ((s1 +:+ s2) +:+ s3)) = String a (s1 +:+ s2 +:+ s3)).
  by f_equal.
Qed.

Lemma pretty_N_go_app x s : pretty_N_go x s = pretty_N_go x "" +:+ s.
Proof.
  revert s. induction (N.lt_wf_0 x) as [x _ IH]; intros s.
  destruct (decide (x = 0)%N) as [->|].
  - by rewrite !pretty_N_go_0.
  - rewrite !(pretty_N_go_step x) by lia.
    assert (x `div` 10 < x)%N as Hlt by (apply N.div_lt; lia).
    rewrite (IH _ Hlt (String _ s)), (IH _ Hlt (String _ "")).
    by rewrite string_app_assoc.
Qed.

(** [pretty] writes a natural number in base ten: the digits of [x / 10],
    if there are any, and then the digit [x mod 10]. *)
Lemma pretty_N_decimal (x : N) :
  pretty x
  = (if decide (x < 10)%N then "" else pretty (x `div` 10)%N)
    +:+ String (pretty_N_char (x `mod` 10)%N) "".
Proof.
  unfold pretty at 1, pretty_N. case_decide as H0; [by subst|].
  rewrite pretty_N_go_step by lia. case_decide as H10.
  - rewrite N.div_small by done. by rewrite pretty_N_go_0.
  - rewrite pretty_N_go_app. unfold pretty, pretty_N.
    rewrite decide_False; [done|]. intros E.
    apply N.div_small_iff in E; lia.
Qed.

Lemma pretty_Z_decimal (i : Z) :
  (0 ≤ i)%Z →
  pretty i
  = (if decide (i < 10)%Z then "" else pretty (i `div` 10)%Z)
    +:+ String (pretty_N_char (Z.to_N (i `mod` 10)%Z)) "".
Proof.
  intros Hi. assert (pretty i = pretty (Z.to_N i)) as ->.
  { by destruct i. }
  rewrite pretty_N_decimal. f_equal.
  - do 2 case_decide; try lia; [done|].
    assert (pretty (i `div` 10)%Z = pretty (Z.to_N (i `div` 10)%Z)) as ->.
    { assert (0 ≤ i `div` 10)%Z by (apply Z.div_pos; lia).
      by destruct (i `div` 10)%Z. }
    f_equal. rewrite Z2N.inj_div by lia. done.
  - do 2 f_equal. rewrite Z2N.inj_mod by lia. done.
Qed.

End DecimalFacts.

(** ** The methods of [Memory] *)

Module MemoryFacts.
Import Memory.

Section Values.

Context {Value : Type}.
Implicit Types (m : @Memory.t Value) (sets : list (Z * Value)).

Lemma after_snoc sets j v :
  after (sets ++ [(j, v)]) = __setitem__ (after sets) j v.
Proof. unfold after. by rewrite foldl_snoc. Qed.

Lemma contains_getitem m i :
  __contains__ m i = true ↔ ∃ v, __getitem__ m i = Ok v.
Proof.
  unfold __contains__, __getitem__. rewrite bool_decide_eq_true.
  destruct (cache m !! i) as [v|].
  - split; eauto.
  - split; [by intros [? ?]|by intros [? ?]].
Qed.

Lemma getitem_KeyError m i :
  __getitem__ m i = Raise KeyError ↔ __contains__ m i = false.
Proof.
  unfold __contains__, __getitem__. rewrite bool_decide_eq_false.
  destruct (cache m !! i) as [v|].
  - split; [done|]. intros H. destruct H. eauto.
  - split; [|done]. by intros _ [? ?].
Qed.

Lemma contains_setitem m i j v :
  __contains__ (__setitem__ m j v) i
  = bool_decide (j = i) || __contains__ m i.
Proof.
  unfold __contains__, __setitem__. simpl.
  destruct (decide (j = i)) as [->|Hne].
  - rewrite lookup_insert_eq, bool_decide_true by done.
    by rewrite bool_decide_true by eauto.
  - rewrite lookup_insert_ne by done. by rewrite (bool_decide_false (j = i)).
Qed.

Lemma contains_after sets i :
  __contains__ (after sets) i = true ↔ i ∈ sets.*1.
Proof.
  induction sets as [|[j v] sets IH] using rev_ind.
  - split; [done|]. by intros ?%elem_of_nil.
  - rewrite after_snoc, contains_setitem, fmap_app, elem_of_app. simpl.
    rewrite orb_true_iff, bool_decide_eq_true, IH, list_elem_of_singleton.
    split; intros [H|H]; auto.
Qed.

Lemma getitem_setitem m i j v :
  __getitem__ (__setitem__ m j v) i
  = if decide (j = i) then Ok v else __getitem__ m i.
Proof.
  unfold __getitem__, __setitem__. simpl. case_decide as H.
  - subst. by rewrite lookup_insert_eq.
  - by rewrite lookup_insert_ne.
Qed.

(** [__getitem__] gives the value of the last [__setitem__] of the index. *)
Lemma getitem_after (pre post : list (Z * Value)) i v :
  i ∉ post.*1 → __getitem__ (after (pre ++ (i, v) :: post)) i = Ok v.
Proof.
  induction post as [|[j w] post IH] using rev_ind; intros Hi.
  - rewrite after_snoc, getitem_setitem. by rewrite decide_True.
  - rewrite fmap_app, not_elem_of_app in Hi. destruct Hi as [Hi Hj].
    simpl in Hj. rewrite list_elem_of_singleton in Hj.
    change (pre ++ (i, v) :: post ++ [(j, w)])
      with (pre ++ ((i, v) :: post) ++ [(j, w)]).
    rewrite app_assoc, after_snoc, getitem_setitem.
    rewrite decide_False by done. by apply IH.
Qed.

End Values.

End MemoryFacts.

(** * The claims *)

Module Claims.
Import StrFacts FsFacts MkdirFacts Pathlib PathlibFacts.
Import PickleFacts PickleOps PickleLife PickleHistory DecimalFacts MemoryFacts.

Section Cachers.

Context {Value : Type}.
Variable pickle_dumps : Value → option bytes.
Variable pickle_loads : bytes → option Value.

Abbreviation survives := (Pickle.survives pickle_dumps pickle_loads).
Abbreviation set_item := (Pickle.__setitem__ pickle_dumps).
Abbreviation get_item := (Pickle.__getitem__ pickle_loads).
Abbreviation has_item := (Pickle.__contains__).
Abbreviation file_path := (Pickle.file_path).

(** What is in the entry's file after [__setitem__] returned. *)
Lemma set_item_then self i v fs fs' :
  survives v → set_item self i v fs = (Ok (), fs') →
  has_item self i fs' = (Ok true, fs') ∧ get_item self i fs' = (Ok v, fs').
Proof.
  intros Hs (Hv & _ & _ & (b & Hb & Hf) & _)%setitem_Ok.
  rewrite contains_valid, getitem_valid, Hf by done. simpl.
  by rewrite (Hs b Hb).
Qed.






(** A second [__setitem__] of an index returns when the first did and
    the value can be pickled. *)
Lemma set_item_again self i v w b fs fs1 :
  set_item self i v fs = (Ok (), fs1) → pickle_dumps w = Some b →
  ∃ fs2, set_item self i w fs1 = (Ok (), fs2).
Proof.
  intros (Hv & _ & Hd & (b0 & _ & Hf) & _)%setitem_Ok Hb.
  eapply setitem_returns; [done..| |done]. by rewrite Hf.
Qed.

(** C6.  Overwriting.  On a [Memory], setting an index twice to [v]
    leaves it contained with value [v], and setting it to [v2] after
    [v] makes [__getitem__] return [v2], which is not [v] when the two
    differ.  On a [Pickle] on which [__setitem__(i, v)] has returned,
    the same holds: a second [__setitem__(i, v)] returns and leaves [i]
    contained with [v], and [__setitem__(i, v2)] returns and leaves [i]
    contained with [v2], for values that survive the serializer. *)
Theorem C6_overwrite (i : Z) (v v2 : Value) :
  (∀ m : @Memory.t Value,
     Memory.__contains__
       (Memory.__setitem__ (Memory.__setitem__ m i v) i v) i = true
     ∧ Memory.__getitem__
         (Memory.__setitem__ (Memory.__setitem__ m i v) i v) i = Ok v
     ∧ Memory.__getitem__
         (Memory.__setitem__ (Memory.__setitem__ m i v) i v2) i = Ok v2
     ∧ (v2 ≠ v →
        Memory.__getitem__
          (Memory.__setitem__ (Memory.__setitem__ m i v) i v2) i ≠ Ok v))
  ∧ (∀ self fs fs1,
       set_item self i v fs = (Ok (), fs1) →
       (survives v →
        ∃ fs2, set_item self i v fs1 = (Ok (), fs2)
               ∧ has_item self i fs2 = (Ok true, fs2)
               ∧ get_item self i fs2 = (Ok v, fs2))
       ∧ (survives v2 → ∀ b2, pickle_dumps v2 = Some b2 →
          ∃ fs2, set_item self i v2 fs1 = (Ok (), fs2)
                 ∧ has_item self i fs2 = (Ok true, fs2)
                 ∧ get_item self i fs2 = (Ok v2, fs2)
                 ∧ (v2 ≠ v → get_item self i fs2 ≠ (Ok v, fs2)))).
Proof.
  split.
  - intros m. rewrite contains_setitem, !getitem_setitem.
    rewrite bool_decide_true, !decide_True by done.
    do 3 (split; [done|]). congruence.
  - intros self fs fs1 Hset. split.
    + intros Hs.
      pose proof Hset as (_ & _ & _ & (b & Hb & _) & _)%setitem_Ok.
      destruct (set_item_again _ _ _ _ _ _ _ Hset Hb) as [fs2 E2].
      exists fs2. split; [done|]. by apply set_item_then in E2.
    + intros Hs b2 Hb2.
      destruct (set_item_again _ _ _ _ _ _ _ Hset Hb2) as [fs2 E2].
      exists fs2. split; [done|].
      destruct (set_item_then _ _ _ _ _ Hs E2) as [Hc Hg].
      do 2 (split; [done|]). rewrite Hg. congruence.
Qed.

(** C7.  Lookup in a [Memory].  On the cacher that a series of
    [__setitem__] calls leaves of a new one, [__getitem__(i)] raises
    [KeyError] exactly when no call set [i], and otherwise returns the
    value of the last call that set [i].  On any [Memory], [KeyError] is
    the only exception of [__getitem__], and it does not occur where
    [__contains__(i)] is true. *)
Theorem C7_memory_lookup (sets : list (Z * Value)) (i : Z) :
  (Memory.__getitem__ (Memory.after sets) i = Raise KeyError ↔ i ∉ sets.*1)
  ∧ (i ∈ sets.*1 → ∃ v, Memory.__getitem__ (Memory.after sets) i = Ok v)
  ∧ (∀ pre v post,
       sets = pre ++ (i, v) :: post → i ∉ post.*1 →
       Memory.__getitem__ (Memory.after sets) i = Ok v)
  ∧ (∀ m : @Memory.t Value,
       Memory.__contains__ m i = true → ∃ v, Memory.__getitem__ m i = Ok v)
  ∧ (∀ (m : @Memory.t Value) e, Memory.__getitem__ m i = Raise e → e = KeyError).
Proof.
  split; [|split; [|split; [|split]]].
  - rewrite getitem_KeyError, <-contains_after.
    by destruct (Memory.__contains__ (Memory.after sets) i).
  - by intros ?%contains_after%contains_getitem.
  - intros pre v post -> Hi. by apply getitem_after.
  - intros m. apply contains_getitem.
  - intros m e. unfold Memory.__getitem__.
    destruct (Memory.cache m !! i); congruence.
Qed.




End Cachers.

(** ** The claims on a sample directory *)

(** Every number that can be pickled survives the sample serializer. *)
Lemma sample_survives (v : Z) :
  (0 ≤ v)%Z → Pickle.survives Sample.dumps Sample.loads v.
Proof.
  intros Hv b. unfold Sample.dumps, Sample.loads.
  rewrite decide_True by done. intros [= <-].
  by rewrite length_replicate, Z2Nat.id.
Qed.






(** C6 on entry 0 set to 3 and then to 5. *)
Lemma C6_overwrite_witness :
  ∃ fs2,
    Pickle.__setitem__ Sample.dumps Sample.cacher 0 5%Z
      (Pickle.__setitem__ Sample.dumps Sample.cacher 0 3%Z Sample.disk).2
    = (Ok (), fs2)
    ∧ Pickle.__contains__ Sample.cacher 0 fs2 = (Ok true, fs2)
    ∧ Pickle.__getitem__ Sample.loads Sample.cacher 0 fs2 = (Ok 5%Z, fs2)
    ∧ (5%Z ≠ 3%Z →
       Pickle.__getitem__ Sample.loads Sample.cacher 0 fs2 ≠ (Ok 3%Z, fs2)).
Proof.
  destruct (C6_overwrite Sample.dumps Sample.loads 0 3%Z 5%Z) as [_ H].
  destruct (H Sample.cacher Sample.disk
              (Pickle.__setitem__ Sample.dumps Sample.cacher 0 3%Z
                 Sample.disk).2) as [_ H2]; [reflexivity|].
  apply (H2 (sample_survives 5 ltac:(lia)) (replicate 5 Byte.x01)).
  reflexivity.
Defined.

(** C7 on a [Memory] where index 1 was set twice. *)
Lemma C7_memory_lookup_witness :
  Memory.__getitem__ (Memory.after [(1, 10); (2, 20); (1, 30)]%Z) 1 = Ok 30%Z.
Proof.
  destruct (C7_memory_lookup [(1, 10); (2, 20); (1, 30)]%Z 1)
    as (_ & _ & H & _).
  apply (H [(1, 10); (2, 20)]%Z 30%Z []); [reflexivity|].
  apply not_elem_of_nil.
Defined.







End Claims.

(** * Further properties *)

(** ** More facts about places, names and series of calls *)

Module FsMore.
Import FsFacts MkdirFacts.

Lemma at_path_app p q f fs :
  at_path (p ++ q) f fs = at_path p (at_path q f) fs.
Proof.
  revert fs. induction p as [|x p IH]; intros fs; [done|].
  simpl. destruct fs as [[|es]|]; [done| |done]. by rewrite IH.
Qed.

(** Below a regular file nothing can be named. *)
Lemma slot_below_file q r fs data :
  resolve q fs = Ok (File data) → r ≠ [] →
  slot (q ++ r) fs = Raise NotADirectoryError.
Proof.
  intros Hq%resolve_slot Hr. rewrite slot_app, Hq. simpl.
  by destruct r.
Qed.

(** A regular file on the way to [p] or at [p] shows in the place of
    [p]. *)
Lemma file_prefix_slot q p fs :
  q `prefix_of` p → is_file_node (resolve q fs) = true →
  (q = p ∧ ∃ data, slot p fs = Ok (Some (File data)))
  ∨ (q ≠ p ∧ slot p fs = Raise NotADirectoryError).
Proof.
  intros [r ->] Hf.
  destruct (resolve q fs) as [[data|]|] eqn:Hq; try done.
  destruct r as [|x r].
  - left. rewrite app_nil_r. split; [done|]. exists data.
    by apply resolve_slot.
  - right. split.
    + intros H. apply (f_equal length) in H.
      rewrite length_app in H. simpl in H. lia.
    + by eapply slot_below_file.
Qed.

Lemma view_File r r' data :
  view r' = view r → r = Ok (File data) → r' = Ok (File data).
Proof. intros H ->. destruct r' as [[]|]; simpl in H; congruence. Qed.

Lemma view_Raise r r' e :
  view r' = view r → r = Raise e → r' = Raise e.
Proof. intros H ->. destruct r' as [[]|]; simpl in H; congruence. Qed.

Lemma view_read r r' : view r' = view r → read_node r' = read_node r.
Proof.
  destruct r as [[]|], r' as [[]|]; simpl; congruence.
Qed.

End FsMore.

Module NameFacts.
Import Str StrFacts Pathlib PathlibFacts Pickle PickleFacts.

(** A name that is a dotless stem followed by a suffix [with_suffix]
    accepts has one stem and one suffix. *)
Lemma stem_suffix_inj (s1 s2 e1 e2 : string) :
  contains_char "." s1 = false → contains_char "." s2 = false →
  valid_suffix e1 = true → valid_suffix e2 = true →
  s1 +:+ e1 = s2 +:+ e2 → s1 = s2 ∧ e1 = e2.
Proof.
  assert (∀ s e e', contains_char "." s = false → valid_suffix e = true →
            valid_suffix e' = true → e = s +:+ e' → s = "") as Hstart.
  { intros s e e' Hs He He' ->. destruct s as [|a s]; [done|].
    exfalso. unfold valid_suffix in He.
    change (String a s +:+ e') with (String a (s +:+ e')) in He.
    simpl in Hs, He. destruct (decide (a = "."%char)) as [->|Ha]; [done|].
    by rewrite andb_false_r in He. }
  revert s2. induction s1 as [|a s1 IH]; intros s2 H1 H2 He1 He2 H.
  - change ("" +:+ e1) with e1 in H.
    pose proof (Hstart s2 e1 e2 H2 He1 He2 H) as ->. done.
  - destruct s2 as [|b s2].
    + change ("" +:+ e2) with e2 in H. symmetry in H.
      by pose proof (Hstart _ e2 e1 H1 He2 He1 H).
    + change (String a (s1 +:+ e1) = String b (s2 +:+ e2)) in H.
      injection H as -> H. simpl in H1, H2.
      destruct (decide (b = "."%char)); [done|].
      destruct (IH s2) as [-> ->]; done.
Qed.

Lemma pretty_Z_no_dot (i : Z) : contains_char "." (pretty i) = false.
Proof. by apply pretty_Z_no_char. Qed.

(** Two cachers give an index of the one and an index of the other the
    same name only when they have the same extension. *)
Lemma file_name_extension self1 self2 i j :
  valid_suffix (extension self1) = true →
  valid_suffix (extension self2) = true →
  file_name self1 i = file_name self2 j →
  extension self1 = extension self2.
Proof.
  intros H1 H2 H. unfold file_name in H.
  by destruct (stem_suffix_inj _ _ _ _ (pretty_Z_no_dot i)
                 (pretty_Z_no_dot j) H1 H2 H).
Qed.

Lemma path_prefix_file_path self i q :
  file_path self i `prefix_of` q → path self `prefix_of` q.
Proof.
  intros H. etrans; [|done]. unfold file_path. by apply prefix_app_r.
Qed.

Lemma self_eta (self : Pickle.t) :
  {| path := path self; extension := extension self |} = self.
Proof. by destruct self. Qed.

End NameFacts.

Module HistoryMore.
Import StrFacts FsFacts MkdirFacts Pathlib PathlibFacts.
Import Pickle PickleFacts PickleOps PickleLife PickleHistory.
Import FsMore NameFacts.

Section Calls.

Context {Value : Type}.
Variable pickle_dumps : Value → option bytes.
Variable pickle_loads : bytes → option Value.

Abbreviation perform := (perform pickle_dumps pickle_loads).
Abbreviation after := (after pickle_dumps pickle_loads).
Abbreviation block := (block pickle_dumps pickle_loads).

Lemma after_last self cs c fs :
  after self (cs ++ [c]) fs = (perform self c (after self cs fs)).2.
Proof. unfold Pickle.after. by rewrite foldl_app. Qed.

(** A call leaves every path that is not at the cacher's directory or
    below it as it was. *)
Lemma perform_outside self c fs q :
  ¬ path self `prefix_of` q →
  view (resolve q (perform self c fs).2) = view (resolve q fs).
Proof.
  intros Hq. destruct c as [j|j v|j|].
  - by rewrite perform_Contains.
  - simpl.
    destruct (setitem_effect pickle_dumps self j v fs) as [->|[f E]];
      [done|].
    eapply at_path_frame; [done|].
    intros H. by apply Hq, (path_prefix_file_path self j).
  - by rewrite perform_GetItem.
  - simpl. destruct (is_dir_node (resolve (path self) fs)) eqn:Hd.
    + destruct (clean_present self fs Hd) as (fs' & -> & _ & Hframe).
      by apply Hframe.
    + by rewrite clean_absent.
Qed.

(** A call that sets another index or none leaves the entry of [i] as it
    was, unless it is [clean]. *)
Lemma perform_other self c fs i :
  sets_index i c = false → c ≠ Clean →
  view (resolve (file_path self i) (perform self c fs).2)
  = view (resolve (file_path self i) fs).
Proof.
  intros Hc Hn. destruct c as [j|j v|j|]; [| | |done].
  - by rewrite perform_Contains.
  - simpl in Hc. apply bool_decide_eq_false in Hc. simpl.
    destruct (setitem_effect pickle_dumps self j v fs) as [->|[f E]];
      [done|].
    eapply at_path_frame; [done|].
    intros Hp%snoc_prefix_snoc%file_name_inj. done.
  - by rewrite perform_GetItem.
Qed.

(** An entry that is missing stays missing under every call that does
    not set it. *)
Lemma perform_keeps_missing self c fs i :
  sets_index i c = false →
  resolve (file_path self i) fs = Raise FileNotFoundError →
  resolve (file_path self i) (perform self c fs).2 = Raise FileNotFoundError.
Proof.
  intros Hc Hi.
  assert (c = Clean ∨ c ≠ Clean) as [-> | Hn]
    by (destruct c; [right; discriminate..|by left]).
  - simpl. destruct (clean_effect self fs) as [->|[_ Hs]]; [done|].
    unfold file_path. by rewrite resolve_below_nothing.
  - eapply view_Raise; [|done]. by apply perform_other.
Qed.

Lemma after_keeps_missing self cs fs i :
  Forall (λ c, sets_index i c = false) cs →
  resolve (file_path self i) fs = Raise FileNotFoundError →
  resolve (file_path self i) (after self cs fs) = Raise FileNotFoundError.
Proof.
  intros Hcs. revert fs. induction Hcs as [|c cs Hc _ IH]; intros fs Hi;
    [done|].
  rewrite after_cons. by apply IH, perform_keeps_missing.
Qed.

Lemma after_keeps_entry self cs fs i data :
  Forall (λ c, sets_index i c = false ∧ c ≠ Clean) cs →
  resolve (file_path self i) fs = Ok (File data) →
  resolve (file_path self i) (after self cs fs) = Ok (File data).
Proof.
  intros Hcs. revert fs. induction Hcs as [|c cs [Hc Hn] _ IH]; intros fs Hi;
    [done|].
  rewrite after_cons. apply IH. eapply view_File; [|done].
  by apply perform_other.
Qed.

Lemma after_outside self cs fs q :
  ¬ path self `prefix_of` q →
  view (resolve q (after self cs fs)) = view (resolve q fs).
Proof.
  intros Hq. revert fs. induction cs as [|c cs IH]; intros fs; [done|].
  rewrite after_cons, IH. by apply perform_outside.
Qed.

End Calls.

End HistoryMore.

(** ** Properties of the two backends *)

Module Further.
Import StrFacts FsFacts MkdirFacts Pathlib PathlibFacts.
Import PickleFacts PickleOps PickleLife PickleHistory DecimalFacts MemoryFacts.
Import FsMore NameFacts HistoryMore Backends.

Section Both.

Context {Value : Type}.
Variable pickle_dumps : Value → option bytes.
Variable pickle_loads : bytes → option Value.

Abbreviation survives := (Pickle.survives pickle_dumps pickle_loads).
Abbreviation set_item := (Pickle.__setitem__ pickle_dumps).
Abbreviation get_item := (Pickle.__getitem__ pickle_loads).
Abbreviation has_item := (Pickle.__contains__).
Abbreviation file_path := (Pickle.file_path).
Abbreviation after := (Pickle.after pickle_dumps pickle_loads).
Abbreviation block := (Pickle.block pickle_dumps pickle_loads).
Abbreviation scoped := (Pickle.scoped pickle_dumps pickle_loads).
Abbreviation agrees := (Backends.agrees pickle_dumps pickle_loads).

(** Opening the entry for writing returns exactly when the directory is
    there and the entry is no directory. *)
Lemma truncate_returns_iff self i fs :
  (∃ fs1, at_path (file_path self i) truncate_file fs = Ok fs1)
  ↔ is_dir_node (resolve (Pickle.path self) fs) = true
    ∧ is_dir_node (resolve (file_path self i) fs) = false.
Proof.
  split.
  - intros [fs1 (o & o' & Hs & Hf & _)%at_path_Ok].
    split; [by eapply slot_snoc_Ok|].
    unfold resolve. rewrite Hs. by destruct o as [[]|].
  - intros [Hd Hnd].
    destruct (slot_in_dir _ (Pickle.file_name self i) _ Hd) as [o Ho].
    eapply at_path_returns; [done|].
    unfold resolve, Pickle.file_path in Hnd. rewrite Ho in Hnd.
    by destruct o as [[]|].
Qed.

(** Writing to the entry that was opened for writing does not fail. *)
Lemma put_after_truncate p b fs fs1 :
  at_path p truncate_file fs = Ok fs1 →
  ∃ fs2, at_path p (put_file b) fs1 = Ok fs2.
Proof.
  intros E1. rewrite (at_path_twice _ _ _ _ _ E1).
  apply at_path_Ok in E1 as (o & o' & Hs & Hf & _).
  eapply at_path_returns; [done|]. by rewrite Hf.
Qed.



(** X3.  Setting an index does not disturb another one.  On a [Memory]
    and on a [Pickle], whatever came of [__setitem__(i, v)],
    [__contains__(j)] and [__getitem__(j)] answer for [j ≠ i] what they
    answered before. *)
Theorem other_index_untouched (i j : Z) (v : Value) :
  i ≠ j →
  (∀ m : @Memory.t Value,
     Memory.__contains__ (Memory.__setitem__ m i v) j = Memory.__contains__ m j
     ∧ Memory.__getitem__ (Memory.__setitem__ m i v) j
       = Memory.__getitem__ m j)
  ∧ (∀ self fs,
       (has_item self j (set_item self i v fs).2).1 = (has_item self j fs).1
       ∧ (get_item self j (set_item self i v fs).2).1
         = (get_item self j fs).1).
Proof.
  intros Hij. split.
  - intros m. rewrite contains_setitem, getitem_setitem.
    by rewrite bool_decide_false, decide_False.
  - intros self fs.
    destruct (valid_suffix (Pickle.extension self)) eqn:Hv.
    2:{ by rewrite !contains_invalid, !getitem_invalid. }
    rewrite !contains_valid, !getitem_valid by done. simpl.
    assert (view (resolve (file_path self j) (set_item self i v fs).2)
            = view (resolve (file_path self j) fs)) as Hview.
    { apply (perform_other pickle_dumps pickle_loads self
               (Pickle.SetItem i v)); [|done].
      by apply bool_decide_eq_false. }
    by rewrite (view_is_file _ _ Hview), (view_read _ _ Hview).
Qed.



(** What [os.mkdir] does with a regular file on its way. *)
Lemma mkdir_blocked p fs q :
  q `prefix_of` p → is_file_node (resolve q fs) = true →
  mkdir p true true fs
  = (Raise (if decide (q = p) then FileExistsError else NotADirectoryError),
     fs).
Proof.
  intros Hq Hf. unfold mkdir.
  assert (is_dir_node (resolve p fs) = false) as Hnd.
  { destruct (file_prefix_slot q p fs Hq Hf) as [[_ [data Hs]]|[_ Hs]];
      unfold resolve; by rewrite Hs. }
  assert (os_mkdir p fs
          = (Raise (if decide (q = p) then FileExistsError
                    else NotADirectoryError), fs)) as Ho.
  { unfold os_mkdir, modify.
    destruct (file_prefix_slot q p fs Hq Hf) as [[-> [data Hs]]|[Hn Hs]].
    - rewrite decide_True by done.
      by rewrite (at_path_refused _ _ _ _ FileExistsError Hs).
    - rewrite decide_False by done.
      by rewrite (at_path_unresolved _ _ _ _ Hs). }
  assert (∀ e, e ≠ FileNotFoundError →
            os_mkdir p fs = (Raise e, fs) →
            mkdir_rev (rev p) true true fs = (Raise e, fs)) as Hrev.
  { intros e He E. destruct (rev p) as [|x rp] eqn:Hp.
    - cbn [mkdir_rev]. rewrite <-Hp, rev_involutive, E.
      unfold mkdir_handle, is_dir, inspect, mbind, IO_bind. rewrite Hnd.
      by destruct e.
    - cbn [mkdir_rev]. rewrite <-Hp, rev_involutive, E.
      unfold mkdir_handle, is_dir, inspect, mbind, IO_bind. rewrite Hnd.
      by destruct e. }
  apply Hrev; [|done]. by destruct (decide (q = p)).
Qed.

(** A construction that raises met a regular file, and changed
    nothing. *)
Lemma init_Raise p ext fs fs' e :
  Pickle.__init__ p ext fs = (Raise e, fs') →
  fs' = fs
  ∧ ∃ q, q `prefix_of` p ∧ is_file_node (resolve q fs) = true
         ∧ e = (if decide (q = p) then FileExistsError
                else NotADirectoryError).
Proof.
  intros H.
  assert ((∃ q, q `prefix_of` p ∧ is_file_node (resolve q fs) = true)
          ∨ ∀ q, q `prefix_of` p → is_file_node (resolve q fs) = false)
    as [(q & Hq & Hf)|Hnone].
  { assert (∀ o, slot p fs = Ok o → is_file_node (found o) = false →
              ∀ q, q `prefix_of` p → is_file_node (resolve q fs) = false)
      as Hfree.
    { intros o Hs Ho q Hq.
      destruct (is_file_node (resolve q fs)) eqn:Hf; [|done].
      destruct (file_prefix_slot q p fs Hq Hf) as [[_ [? Hs']]|[_ Hs']];
        rewrite Hs in Hs'; by simplify_eq. }
    destruct (slot p fs) as [[[data|es]|]|e0] eqn:Hs.
    - left. exists p. split; [done|]. unfold resolve. by rewrite Hs.
    - right. by eapply Hfree.
    - right. by eapply Hfree.
    - destruct (slot_raises _ _ _ Hs) as [-> | ->].
      + right. intros q Hq.
        destruct (is_file_node (resolve q fs)) eqn:Hf; [|done].
        destruct (file_prefix_slot q p fs Hq Hf) as [[_ [? ?]]|[_ ?]];
          congruence.
      + left. apply slot_NotADirectory in Hs as (q & Hq & _ & Hf).
        by exists q. }
  - rewrite init_unfold, (mkdir_blocked p fs q Hq Hf) in H.
    injection H as <- <-. split; [done|]. by exists q.
  - destruct (init_returns p ext fs Hnone) as [fs1 E]. congruence.
Qed.


(** X7.  An entry lasts.  Once [__setitem__(i, v)] has returned, after
    any series of calls that neither set [i] nor [clean],
    [__contains__(i)] returns true and [__getitem__(i)] returns [v]; and
    constructing a cacher of the same path and extension then returns
    and changes nothing, so that the entry is there for the new cacher
    as well. *)
Theorem entry_persists (self : Pickle.t) (i : Z) (v : Value)
    (fs fs1 : place) (cs : list Pickle.call) :
  survives v →
  set_item self i v fs = (Ok (), fs1) →
  Forall (λ c, Pickle.sets_index i c = false ∧ c ≠ Pickle.Clean) cs →
  has_item self i (after self cs fs1) = (Ok true, after self cs fs1)
  ∧ get_item self i (after self cs fs1) = (Ok v, after self cs fs1)
  ∧ Pickle.__init__ (Pickle.path self) (Pickle.extension self)
      (after self cs fs1)
    = (Ok self, after self cs fs1).
Proof.
  intros Hs (Hv & _ & _ & (b & Hb & Hf) & _)%setitem_Ok Hcs.
  pose proof (after_keeps_entry pickle_dumps pickle_loads _ _ _ _ _ Hcs Hf)
    as Hf'.
  rewrite contains_valid, getitem_valid, Hf' by done. simpl.
  rewrite (Hs b Hb). do 2 (split; [done|]).
  rewrite init_existing, self_eta; [done|].
  eapply resolve_prefix; [exact Hf'|done].
Qed.

(** X8.  Two cachers on one directory whose extensions differ keep
    apart: whatever came of [__setitem__(i, v)] on the one,
    [__contains__(j)] and [__getitem__(j)] of the other answer what they
    answered before, for all [i] and [j]. *)
Theorem extensions_apart (self1 self2 : Pickle.t) (i j : Z) (v : Value)
    (fs : place) :
  Pickle.path self1 = Pickle.path self2 →
  Pickle.extension self1 ≠ Pickle.extension self2 →
  (has_item self2 j (set_item self1 i v fs).2).1 = (has_item self2 j fs).1
  ∧ (get_item self2 j (set_item self1 i v fs).2).1 = (get_item self2 j fs).1.
Proof.
  intros Hp He.
  destruct (valid_suffix (Pickle.extension self2)) eqn:Hv2.
  2:{ by rewrite !contains_invalid, !getitem_invalid. }
  rewrite !contains_valid, !getitem_valid by done. simpl.
  assert (view (resolve (file_path self2 j) (set_item self1 i v fs).2)
          = view (resolve (file_path self2 j) fs)) as Hview.
  { destruct (valid_suffix (Pickle.extension self1)) eqn:Hv1;
      [|by rewrite setitem_invalid].
    destruct (setitem_effect pickle_dumps self1 i v fs) as [->|[f E]];
      [done|].
    eapply at_path_frame; [done|].
    unfold Pickle.file_path. rewrite Hp.
    intros Hn%snoc_prefix_snoc.
    by apply He, (file_name_extension self1 self2 i j). }
  by rewrite (view_is_file _ _ Hview), (view_read _ _ Hview).
Qed.

(** The empty directory holds what the new dict holds. *)
Lemma agrees_new self fs :
  resolve (Pickle.path self) fs = Ok (Dir ∅) → agrees self Memory.__init__ fs.
Proof.
  intros Hr. split; [by rewrite Hr|]. intros i. simpl.
  rewrite lookup_empty. unfold Pickle.file_path.
  by rewrite resolve_app, (proj1 (resolve_slot _ _ _) Hr).
Qed.

Lemma agrees_answers self m fs i :
  valid_suffix (Pickle.extension self) = true → agrees self m fs →
  has_item self i fs = (Ok (Memory.__contains__ m i), fs)
  ∧ get_item self i fs = (on_disk (Memory.__getitem__ m i), fs).
Proof.
  intros Hv [_ H]. specialize (H i).
  rewrite contains_valid, getitem_valid by done.
  unfold Memory.__contains__, Memory.__getitem__.
  destruct (Memory.cache m !! i) as [v|].
  - destruct H as (b & _ & Hl & ->). simpl. by rewrite Hl.
  - by rewrite H.
Qed.

Lemma agrees_setitem self m fs i v b :
  valid_suffix (Pickle.extension self) = true → agrees self m fs →
  pickle_dumps v = Some b → pickle_loads b = Some v →
  ∃ fs', set_item self i v fs = (Ok (), fs')
         ∧ agrees self (Memory.__setitem__ m i v) fs'.
Proof.
  intros Hv [Hd H] Hb Hl.
  destruct (setitem_returns pickle_dumps self i v b fs) as [fs' E];
    [done..| |done|].
  { specialize (H i). destruct (Memory.cache m !! i).
    - by destruct H as (? & _ & _ & ->).
    - by rewrite H. }
  exists fs'. split; [done|].
  apply setitem_Ok in E as (_ & _ & Hd' & (b' & Hb' & Hf) & Hframe).
  split; [done|]. intros j. simpl.
  destruct (decide (j = i)) as [->|Hne].
  - rewrite lookup_insert_eq. exists b. by simplify_eq.
  - rewrite lookup_insert_ne by done. specialize (H j).
    assert (view (resolve (file_path self j) fs')
            = view (resolve (file_path self j) fs)) as Hview.
    { apply Hframe. intros Hp%snoc_prefix_snoc%file_name_inj. done. }
    destruct (Memory.cache m !! j).
    + destruct H as (bj & ? & ? & Hj). exists bj.
      do 2 (split; [done|]). by eapply view_File.
    + by eapply view_Raise.
Qed.

Lemma agrees_after self sets fs :
  valid_suffix (Pickle.extension self) = true →
  resolve (Pickle.path self) fs = Ok (Dir ∅) →
  Forall (λ s, survives s.2 ∧ is_Some (pickle_dumps s.2)) sets →
  agrees self (Memory.after sets) (after self (set_calls sets) fs).
Proof.
  intros Hv Hr. induction sets as [|[j v] sets IH] using rev_ind.
  - intros _. by apply agrees_new.
  - intros [Hsets [[Hs [b Hb]] _]%Forall_cons]%Forall_app.
    replace (set_calls (sets ++ [(j, v)]))
      with (set_calls sets ++ [Pickle.SetItem j v])
      by (unfold set_calls; by rewrite map_app).
    rewrite MemoryFacts.after_snoc, after_last. simpl in *.
    destruct (agrees_setitem self _ _ j v b Hv (IH Hsets) Hb (Hs b Hb))
      as (fs' & -> & Ha). done.
Qed.



(** X11.  What [Pickle.__setitem__] does to the listing of the
    directory.  When [__setitem__(i, v)] has returned on a directory
    with the entries [es], the directory has the entries [es] with the
    one name of the entry of [i] bound to the regular file of the
    pickled value: one name is added or rebound, none is removed, and
    no directory is made. *)
Theorem setitem_listing (self : Pickle.t) (i : Z) (v : Value)
    (fs fs' : place) (es : gmap string node) :
  resolve (Pickle.path self) fs = Ok (Dir es) →
  set_item self i v fs = (Ok (), fs') →
  ∃ b, pickle_dumps v = Some b
       ∧ resolve (Pickle.path self) fs'
         = Ok (Dir (<[Pickle.file_name self i := File b]> es)).
Proof.
  intros Hr%resolve_slot H.
  pose proof H as (Hv & _)%setitem_Ok.
  rewrite setitem_valid in H by done.
  destruct (at_path _ _ fs) as [fs1|] eqn:E1; [|done].
  destruct (pickle_dumps v) as [b|]; [|done].
  destruct (at_path _ _ fs1) as [fs2|] eqn:E2; [|done].
  injection H as <-. exists b. split; [done|].
  rewrite (at_path_twice _ _ _ _ _ E1) in E2.
  unfold Pickle.file_path in E2. rewrite at_path_app in E2.
  apply at_path_Ok in E2 as (o & o' & Hs & Hf & Hs').
  rewrite Hr in Hs. injection Hs as <-. apply resolve_slot.
  rewrite Hs'. f_equal. simpl in Hf.
  destruct (es !! Pickle.file_name self i) as [[]|]; simpl in Hf;
    by simplify_eq.
Qed.


(** A path that leads to an entry of a directory leads to the directory
    or is the entry's. *)
Lemma prefix_snoc_cases (p q : Path) x :
  p `prefix_of` q ++ [x] → p `prefix_of` q ∨ p = q ++ [x].
Proof.
  intros [r Hr]. destruct r as [|y r _] using rev_ind.
  - right. by rewrite app_nil_r in Hr.
  - left. rewrite app_assoc in Hr. apply app_inj_tail in Hr as [-> _].
    by apply prefix_app_r.
Qed.


(** X14.  A directory in the place of an entry.  Where the entry of
    [i] is a directory, [__contains__(i)] returns false, and
    [__getitem__(i)] and [__setitem__(i, v)] both raise
    [IsADirectoryError], for every value; none of them changes the file
    system, so the index stays uncached until the directory is
    removed. *)
Theorem entry_is_directory (self : Pickle.t) (i : Z) (fs : place) :
  valid_suffix (Pickle.extension self) = true →
  is_dir_node (resolve (file_path self i) fs) = true →
  has_item self i fs = (Ok false, fs)
  ∧ get_item self i fs = (Raise IsADirectoryError, fs)
  ∧ ∀ v, set_item self i v fs = (Raise IsADirectoryError, fs).
Proof.
  intros Hv Hd.
  destruct (resolve (file_path self i) fs) as [[|es]|] eqn:Hr; try done.
  rewrite contains_valid, getitem_valid, Hr by done.
  do 2 (split; [done|]). intros v. rewrite setitem_valid by done.
  apply resolve_slot in Hr.
  by rewrite (at_path_refused _ _ _ _ IsADirectoryError Hr).
Qed.

End Both.

(** ** The properties on the sample directory *)



(** X3 on the entries 0 and 1 of the sample directory. *)
Lemma other_index_untouched_witness :
  (Pickle.__getitem__ Sample.loads Sample.cacher 1
     (Pickle.__setitem__ Sample.dumps Sample.cacher 0 3%Z Sample.disk).2).1
  = (Pickle.__getitem__ Sample.loads Sample.cacher 1 Sample.disk).1.
Proof.
  destruct (other_index_untouched Sample.dumps Sample.loads 0 1 3%Z) as [_ H];
    [discriminate|].
  apply (H Sample.cacher Sample.disk).
Defined.




(** X7 on entry 0 after calls on other entries. *)
Lemma entry_persists_witness :
  Pickle.__getitem__ Sample.loads Sample.cacher 0
    (Pickle.after Sample.dumps Sample.loads Sample.cacher
       [Pickle.SetItem 1 5%Z; Pickle.GetItem 2]
       (Pickle.__setitem__ Sample.dumps Sample.cacher 0 3%Z Sample.disk).2)
  = (Ok 3%Z,
     Pickle.after Sample.dumps Sample.loads Sample.cacher
       [Pickle.SetItem 1 5%Z; Pickle.GetItem 2]
       (Pickle.__setitem__ Sample.dumps Sample.cacher 0 3%Z Sample.disk).2).
Proof.
  destruct (entry_persists Sample.dumps Sample.loads Sample.cacher 0 3%Z
              Sample.disk
              (Pickle.__setitem__ Sample.dumps Sample.cacher 0 3%Z
                 Sample.disk).2
              [Pickle.SetItem 1 5%Z; Pickle.GetItem 2])
    as (_ & H & _); [|reflexivity| |exact H].
  - apply Claims.sample_survives. lia.
  - repeat constructor; discriminate.
Defined.

(** X8 on the sample directory shared with a cacher of [".bin"]. *)
Lemma extensions_apart_witness :
  (Pickle.__contains__ Others.binary 0
     (Pickle.__setitem__ Sample.dumps Sample.cacher 0 3%Z Sample.disk).2).1
  = (Pickle.__contains__ Others.binary 0 Sample.disk).1.
Proof.
  destruct (extensions_apart Sample.dumps Sample.loads Sample.cacher
              Others.binary 0 0 3%Z Sample.disk) as [H _];
    [reflexivity|discriminate|exact H].
Defined.



(** X11 on entry 0 of the empty sample directory. *)
Lemma setitem_listing_witness :
  ∃ b, Sample.dumps 3 = Some b
       ∧ resolve (Pickle.path Sample.cacher)
           (Pickle.__setitem__ Sample.dumps Sample.cacher 0 3%Z Sample.disk).2
         = Ok (Dir (<[Pickle.file_name Sample.cacher 0 := File b]> ∅)).
Proof.
  apply (setitem_listing Sample.dumps Sample.cacher 0 3%Z Sample.disk);
    reflexivity.
Defined.



(** X14 on a directory of the name of entry 0. *)
Lemma entry_is_directory_witness :
  Pickle.__contains__ Sample.cacher 0 Others.taken = (Ok false, Others.taken)
  ∧ Pickle.__getitem__ Sample.loads Sample.cacher 0 Others.taken
    = (Raise IsADirectoryError, Others.taken)
  ∧ ∀ v, Pickle.__setitem__ Sample.dumps Sample.cacher 0 v Others.taken
         = (Raise IsADirectoryError, Others.taken).
Proof.
  apply (entry_is_directory Sample.dumps Sample.loads Sample.cacher 0
           Others.taken); reflexivity.
Defined.

End Further.
